(** * pyannote-face: replay of precomputed face and landmark files

    A shallow embedding of [scripts/pyannote-face.py]: the two generators
    [getFaceGenerator] and [getLandmarkGenerator], which replay a file of
    timestamped records in step with the timestamps sent by a frame loop,
    the [overlay] closure of [get_fl], which draws the replies, and the
    drivers [track], [landmark], [features] and [demo] around them, with
    their collaborators (tracker, landmark predictor, embedding network,
    video clip) as parameters.

    Numbers.  Every finite float denotes a rational, and [==], [>] and
    [int(...)] on finite floats agree with the same operations on the
    rationals they denote; times and coordinates are therefore [Q], and the
    decimals of a file are read as exact rationals.  NaN and the rounding of
    float32 products are outside the model. *)

From Stdlib Require Import String List ZArith QArith Qround Lia Lqa Bool.
From Stdlib Require Import Permutation Sorted.
Import ListNotations.

Local Open Scope Q_scope.

(** ** Numeric helpers *)

(** Python's [int(x)] on a float: truncation toward zero. *)
Definition int (x : Q) : Z := Z.quot (Qnum x) (Zpos (Qden x)).

(** [a > b] on floats, as a boolean. *)
Definition Qgt_bool (a b : Q) : bool := negb (Qle_bool a b).

(** [np.round]: to the nearest integer, ties to the even one. *)
Definition np_round (x : Q) : Q :=
  let f := Qfloor x in
  match (x - inject_Z f) ?= (1 # 2) with
  | Lt => inject_Z f
  | Gt => inject_Z (f + 1)
  | Eq => if Z.even f then inject_Z f else inject_Z (f + 1)
  end.

(** ** Data model *)

(** The exceptions the modelled code can raise. *)
Inductive exn : Type :=
| IndexError
| KeyError.

(** [dlib.drectangle] holds floating-point coordinates, [dlib.rectangle]
    integer ones. *)
Inductive rect : Type :=
| drectangle (left top right bottom : Q)
| rectangle (left top right bottom : Z).

(** One row of the tracking file, with the column names of line 99. *)
Record track_row : Type := mkRow {
  row_t : Q;
  row_track : Z;
  row_left : Q;
  row_top : Q;
  row_right : Q;
  row_bottom : Q;
  row_status : string
}.

(** What the face generator yields for one row:
    [(identifier, face, status)]. *)
Abbreviation face_item := (Z * rect * string)%type.

(** A reply of a generator: [(time, items)]. *)
Abbreviation reply I := (Q * list I)%type.

(** ** [tracking.sort_values('t')]

    pandas promises the order of the keys only, not the order among rows of
    equal key; the model is an insertion sort, and what is proved about the
    order inside a group is stated up to permutation. *)

Fixpoint insert_row (r : track_row) (l : list track_row) : list track_row :=
  match l with
  | [] => [r]
  | x :: l' =>
      if Qle_bool (row_t r) (row_t x) then r :: x :: l'
      else x :: insert_row r l'
  end.

Fixpoint sort_values (l : list track_row) : list track_row :=
  match l with
  | [] => []
  | r :: l' => insert_row r (sort_values l')
  end.

(** ** [getFaceGenerator] (lines 95-149) *)

Module Face.
Section Generator.

Variables frame_width frame_height : Z.
Variable double : bool.

(** Lines 109 and 116-121: the coordinates are truncated by [int] before
    the rectangle is built, whichever class [double] selects. *)
Definition make_face (r : track_row) : rect :=
  let left := int (row_left r * inject_Z frame_width) in
  let right := int (row_right r * inject_Z frame_width) in
  let top := int (row_top r * inject_Z frame_height) in
  let bottom := int (row_bottom r * inject_Z frame_height) in
  if double
  then drectangle (inject_Z left) (inject_Z top)
                  (inject_Z right) (inject_Z bottom)
  else rectangle left top right bottom.

Definition item (r : track_row) : face_item :=
  (row_track r, make_face r, row_status r).

(** The generator between two [send]s: one constructor per [yield] it can
    be suspended at, carrying the variables that are live there.
    - [Start]: line 107, [t = yield], holding the sorted table;
    - [Wait]: line 137, [t = yield t, []] inside the wait loop;
    - [Deliver]: line 141, [t = yield currentT, faces]; on resumption the
      row in hand becomes the new buffer (lines 144-145);
    - [End]: line 149, after the last row. *)
Inductive gen : Type :=
| Start (tracking : list track_row)
| Wait (currentT : Q) (faces : list face_item)
       (T : Q) (it : face_item) (rest : list track_row)
| Deliver (T : Q) (it : face_item) (rest : list track_row)
| End.

(** Lines 133-146, entered with the row [(T, it)] in hand. *)
Definition wait_loop (t currentT : Q) (faces : list face_item)
           (T : Q) (it : face_item) (rest : list track_row)
  : reply face_item * gen :=
  if Qgt_bool currentT t
  then ((t, []), Wait currentT faces T it rest)
  else ((currentT, faces), Deliver T it rest).

(** Lines 114-149: the [for] loop over the remaining rows, run until the
    next [yield]. *)
Fixpoint for_loop (t : Q) (currentT : option Q) (faces : list face_item)
         (rest : list track_row) : reply face_item * gen :=
  match rest with
  | [] => ((t, []), End)
  | r :: rest' =>
      let T := row_t r in
      match currentT with
      | None => for_loop t (Some T) (faces ++ [item r]) rest'
      | Some c =>
          if Qeq_bool T c
          then for_loop t (Some T) (faces ++ [item r]) rest'
          else wait_loop t c faces T (item r) rest'
      end
  end.

(** [generator.send(t)]: resume at the suspended [yield] with [t] and run
    to the next one. *)
Definition send (g : gen) (t : Q) : reply face_item * gen :=
  match g with
  | Start tracking => for_loop t None [] tracking
  | Wait currentT faces T it rest => wait_loop t currentT faces T it rest
  | Deliver T it rest => for_loop t (Some T) [it] rest
  | End => ((t, []), End)
  end.

(** The generator after the priming [send(None)] of lines 252 and 323:
    the file is read and sorted, and the generator waits at line 107. *)
Definition getFaceGenerator (tracking : list track_row) : gen :=
  Start (sort_values tracking).

(** The replies to a sequence of queries. *)
Fixpoint run (g : gen) (qs : list Q) : list (reply face_item) :=
  match qs with
  | [] => []
  | q :: qs' => let (r, g') := send g q in r :: run g' qs'
  end.

Definition replay (tracking : list track_row) (qs : list Q)
  : list (reply face_item) :=
  run (getFaceGenerator tracking) qs.

End Generator.
End Face.

(** ** [pairwise] and [getLandmarkGenerator] (lines 152-210) *)

(** [zip(a, a)] over one iterator: consecutive pairs; an unpaired last
    element is consumed and dropped. *)
Fixpoint pairwise {A : Type} (l : list A) : list (A * A) :=
  match l with
  | a :: b :: l' => (a, b) :: pairwise l'
  | _ => []
  end.

(** One row of the landmark table: its [d] fields. *)
Abbreviation shape_row := (list Q).

(** What the landmark generator yields for one row:
    [(identifier, landmarks)], the landmarks being the rows of an (N, 2)
    array. *)
Abbreviation landmark_item := (Z * list (Q * Q))%type.

(** Line 166, [n_points = (d - 2) / 2] under true division.  The value is
    bound and never read again. *)
Definition n_points (d : nat) : Q := (inject_Z (Z.of_nat d) - 2) / 2.

Module Landmark.
Section Generator.

Variables frame_width frame_height : Z.

(** Lines 176-181.  [row[0]] and [row[1]] raise [KeyError] on a missing
    column.  [np.float32] of an empty list of pairs is a one-dimensional
    array, on which the two-dimensional index of line 180 raises
    [IndexError]. *)
Definition convert (row : shape_row) : exn + (Q * landmark_item) :=
  match nth_error row 0, nth_error row 1 with
  | Some T, Some identifier =>
      match pairwise (skipn 2 row) with
      | [] => inl IndexError
      | landmarks =>
          inr (T, (int identifier,
                   map (fun p => (np_round (fst p * inject_Z frame_width),
                                  np_round (snd p * inject_Z frame_height)))
                       landmarks))
      end
  | _, _ => inl KeyError
  end.

(** The suspension points, as for the face generator: lines 169, 198, 202
    and 210. *)
Inductive gen : Type :=
| Start (shape : list shape_row)
| Wait (currentT : Q) (shapes : list landmark_item)
       (T : Q) (it : landmark_item) (rest : list shape_row)
| Deliver (T : Q) (it : landmark_item) (rest : list shape_row)
| End.

(** Lines 194-207. *)
Definition wait_loop (t currentT : Q) (shapes : list landmark_item)
           (T : Q) (it : landmark_item) (rest : list shape_row)
  : reply landmark_item * gen :=
  if Qgt_bool currentT t
  then ((t, []), Wait currentT shapes T it rest)
  else ((currentT, shapes), Deliver T it rest).

(** Lines 174-210; the table is iterated in file order. *)
Fixpoint for_loop (t : Q) (currentT : option Q) (shapes : list landmark_item)
         (rest : list shape_row) : exn + reply landmark_item * gen :=
  match rest with
  | [] => inr ((t, []), End)
  | row :: rest' =>
      match convert row with
      | inl e => inl e
      | inr (T, it) =>
          match currentT with
          | None => for_loop t (Some T) (shapes ++ [it]) rest'
          | Some c =>
              if Qeq_bool T c
              then for_loop t (Some T) (shapes ++ [it]) rest'
              else inr (wait_loop t c shapes T it rest')
          end
      end
  end.

Definition send (g : gen) (t : Q) : exn + reply landmark_item * gen :=
  match g with
  | Start shape => for_loop t None [] shape
  | Wait currentT shapes T it rest =>
      inr (wait_loop t currentT shapes T it rest)
  | Deliver T it rest => for_loop t (Some T) [it] rest
  | End => inr ((t, []), End)
  end.

(** After the priming [send(None)] of lines 286 and 328. *)
Definition getLandmarkGenerator (shape : list shape_row) : gen :=
  Start shape.

(** The replies to a sequence of queries, up to the first exception. *)
Fixpoint run (g : gen) (qs : list Q)
  : list (reply landmark_item) * option exn :=
  match qs with
  | [] => ([], None)
  | q :: qs' =>
      match send g q with
      | inl e => ([], Some e)
      | inr (r, g') => let (rs, e) := run g' qs' in (r :: rs, e)
      end
  end.

Definition replay (shape : list shape_row) (qs : list Q)
  : list (reply landmark_item) * option exn :=
  run (getLandmarkGenerator shape) qs.

End Generator.
End Landmark.

(** ** [get_fl] and its [overlay] closure (lines 308-372) *)

Abbreviation rgb := (Z * Z * Z)%type.

(** Lines 310-318. *)
Definition COLORS : list rgb :=
  [ (240, 163, 255); (  0, 117, 220); (153,  63,   0); ( 76,   0,  92);
    ( 25,  25,  25); (  0,  92,  49); ( 43, 206,  72); (255, 204, 153);
    (128, 128, 128); (148, 255, 181); (143, 124,   0); (157, 204,   0);
    (194,   0, 136); (  0,  51, 128); (255, 164,   5); (255, 168, 187);
    ( 66, 102,   0); (255,   0,  16); ( 94, 241, 242); (  0, 153, 143);
    (224, 255, 102); (116,  10, 255); (153,   0,   0); (255, 255, 128);
    (255, 255,   0); (255,  80,   5) ]%Z.

(** Line 344, [COLORS[identifier % len(COLORS)]].  Python's [%] takes the
    sign of the divisor, as [Z.modulo] does. *)
Definition color_of (identifier : Z) : rgb :=
  nth (Z.to_nat (identifier mod Z.of_nat (List.length COLORS))) COLORS (0, 0, 0)%Z.

(** What [overlay] writes on the frame. *)
Inductive text : Type :=
| Timestamp (t : Q)
| TrackerId (identifier : Z)
| Label (label : string).

Inductive draw : Type :=
| putText (txt : text) (org : Z * Z)
| cv_rectangle (pt1 pt2 : Z * Z) (color : rgb) (thickness : Z)
| cv_line (pt1 pt2 : Z * Z) (color : rgb) (thickness : Z).

Definition rect_left (f : rect) : Q :=
  match f with drectangle l _ _ _ => l | rectangle l _ _ _ => inject_Z l end.
Definition rect_top (f : rect) : Q :=
  match f with drectangle _ t _ _ => t | rectangle _ t _ _ => inject_Z t end.
Definition rect_right (f : rect) : Q :=
  match f with drectangle _ _ r _ => r | rectangle _ _ r _ => inject_Z r end.
Definition rect_bottom (f : rect) : Q :=
  match f with drectangle _ _ _ b => b | rectangle _ _ _ b => inject_Z b end.

(** [labels.get(identifier, '')] on the dictionary of lines 383-389. *)
Fixpoint labels_get (labels : list (Z * string)) (identifier : Z) : string :=
  match labels with
  | [] => EmptyString
  | (k, v) :: labels' =>
      if Z.eqb k identifier then v else labels_get labels' identifier
  end.

(** Lines 365-368: the landmark set is looked up by the position [i] of the
    face in the face reply; its own identifier is bound to [_]. *)
Definition draw_nose (landmarks : list landmark_item) (i : nat) (color : rgb)
  : exn + list draw :=
  match nth_error landmarks i with
  | None => inl IndexError
  | Some (_, landmark) =>
      match nth_error landmark 27, nth_error landmark 33 with
      | Some p27, Some p33 =>
          inr [cv_line (int (fst p27), int (snd p27))
                       (int (fst p33), int (snd p33)) color 1]
      | _, _ => inl IndexError
      end
  end.

(** Lines 344-368, the body of the loop for the face at position [i].
    [landmarks] is [None] when no shape file was given ([if shape:]). *)
Definition draw_face (labels : list (Z * string))
           (landmarks : option (list landmark_item))
           (i : nat) (f : face_item) : exn + list draw :=
  let '(identifier, face, _) := f in
  let color := color_of identifier in
  let pt1 := (int (rect_left face), int (rect_top face)) in
  let pt2 := (int (rect_right face), int (rect_bottom face)) in
  let box :=
    [ cv_rectangle pt1 pt2 color 2;
      putText (TrackerId identifier) (fst pt1, snd pt2 + 15)%Z;
      putText (Label (labels_get labels identifier))
              (fst pt1, snd pt1 - 7)%Z ] in
  match landmarks with
  | None => inr box
  | Some lms =>
      match draw_nose lms i color with
      | inl e => inl e
      | inr nose => inr (box ++ nose)
      end
  end.

(** Line 343, the loop over [enumerate(faces)] from position [i] on. *)
Fixpoint draw_faces (labels : list (Z * string))
         (landmarks : option (list landmark_item))
         (i : nat) (faces : list face_item) : exn + list draw :=
  match faces with
  | [] => inr []
  | f :: faces' =>
      match draw_face labels landmarks i f with
      | inl e => inl e
      | inr ds =>
          match draw_faces labels landmarks (S i) faces' with
          | inl e => inl e
          | inr ds' => inr (ds ++ ds')
          end
      end
  end.

(** The state captured by the closure: the face generator and, when a shape
    file was given, the landmark generator. *)
Abbreviation overlay_state := (Face.gen * option Landmark.gen)%type.

(** Lines 320-328. *)
Definition get_fl (tracking : list track_row) (frame_width frame_height : Z)
           (shape : option (list shape_row)) : overlay_state :=
  (Face.getFaceGenerator tracking,
   option_map Landmark.getLandmarkGenerator shape).

(** Lines 333-370, for a frame of the given [height]. *)
Definition overlay (frame_width frame_height : Z) (shift : Q)
           (labels : list (Z * string)) (height : Z)
           (st : overlay_state) (timestamp : Q)
  : exn + list draw * overlay_state :=
  let (r, fg) := Face.send frame_width frame_height true (fst st)
                           (timestamp - shift) in
  let faces := snd r in
  match
    match snd st with
    | None => inr (None, None)
    | Some lg =>
        match Landmark.send frame_width frame_height lg (timestamp - shift) with
        | inl e => inl e
        | inr (r', lg') => inr (Some (snd r'), Some lg')
        end
    end
  with
  | inl e => inl e
  | inr (landmarks, lg') =>
      match draw_faces labels landmarks 0 faces with
      | inl e => inl e
      | inr ds =>
          inr (putText (Timestamp timestamp) (10, height - 10)%Z :: ds,
               (fg, lg'))
      end
  end.

(** ** The groups of a file and the replay protocol over them

    The two definitions of this section are not translated from a function
    of the source: they state what the replay loop does in terms of groups,
    and are related to the generator by [run_serve] below. *)

Section Groups.

Context {R I : Type}.
Variable time : R -> Q.
Variable conv : R -> I.

(** The rows cut into maximal runs of equal time, [c] and [buf] being the
    time and the items of the run that is open. *)
Fixpoint collect (c : Q) (buf : list I) (rest : list R) : list (reply I) :=
  match rest with
  | [] => [(c, buf)]
  | r :: rest' =>
      if Qeq_bool (time r) c
      then collect (time r) (buf ++ [conv r]) rest'
      else (c, buf) :: collect (time r) [conv r] rest'
  end.

Definition groups (rows : list R) : list (reply I) :=
  match rows with
  | [] => []
  | r :: rest => collect (time r) [conv r] rest
  end.

End Groups.

(** The protocol over a list of groups still to be delivered: a query that
    has not reached the first group is answered [(q, [])], a query that has
    is answered with that group, and every query is answered [(q, [])] once
    the list is empty. *)
Fixpoint serve {I : Type} (gs : list (reply I)) (qs : list Q)
  : list (reply I) :=
  match qs with
  | [] => []
  | q :: qs' =>
      match gs with
      | [] => (q, []) :: serve [] qs'
      | g :: gs' =>
          if Qgt_bool (fst g) q
          then (q, []) :: serve gs qs'
          else g :: serve gs' qs'
      end
  end.

(** The rows of the file recorded at time [g]. *)
Definition rows_at (g : Q) (rows : list track_row) : list track_row :=
  filter (fun r => Qeq_bool (row_t r) g) rows.

(** The number of queries that have reached time [g]. *)
Definition reaching (g : Q) (qs : list Q) : nat :=
  List.length (filter (fun q => Qle_bool g q) qs).

Definition ascending (rows : list track_row) : Prop :=
  StronglySorted (fun a b => row_t a <= row_t b) rows.

Definition nondecreasing (qs : list Q) : Prop :=
  StronglySorted Qle qs.

(** Group times strictly increasing. *)
Definition increasing {I : Type} (gs : list (reply I)) : Prop :=
  StronglySorted (fun a b => fst a < fst b) gs.

(** ** What the statements are about *)

(** The groups of the rows a suspended face generator has buffered, has in
    hand and has still to read. *)
Definition face_groups (frame_width frame_height : Z) (double : bool)
           (g : Face.gen) : list (reply face_item) :=
  let item := Face.item frame_width frame_height double in
  match g with
  | Face.Start tracking => groups row_t item tracking
  | Face.Wait currentT faces T it rest =>
      (currentT, faces) :: collect row_t item T [it] rest
  | Face.Deliver T it rest => collect row_t item T [it] rest
  | Face.End => []
  end.

(** The groups a suspended face generator can still deliver: the [for] loop
    ends at line 147 with the last group in the buffer and goes on to the
    loop of line 148 without yielding it. *)
Definition pending (frame_width frame_height : Z) (double : bool)
           (g : Face.gen) : list (reply face_item) :=
  removelast (face_groups frame_width frame_height double g).

(** The groups of a tracking file: its rows, sorted by time, cut where the
    time changes. *)
Definition file_groups (frame_width frame_height : Z) (double : bool)
           (tracking : list track_row) : list (reply face_item) :=
  groups row_t (Face.item frame_width frame_height double)
         (sort_values tracking).

(** A reply to the query [q] is either the empty echo [(q, [])] or a
    non-empty delivery whose time has been reached by [q]. *)
Definition reply_ok {I : Type} (q : Q) (r : reply I) : Prop :=
  r = (q, []) \/ (snd r <> [] /\ fst r <= q).

(** The at-most-one-delivery property as the specification words it: every
    group of the file is in exactly one reply. *)
Definition every_group_once (frame_width frame_height : Z) (double : bool)
           (tracking : list track_row) (qs : list Q) : Prop :=
  forall g, In g (file_groups frame_width frame_height double tracking) ->
  exists! i,
    nth_error (Face.replay frame_width frame_height double tracking qs) i
    = Some g.

(** The last query has reached every group. *)
Definition reaches_all {I : Type} (qs : list Q) (gs : list (reply I)) : Prop :=
  qs <> [] /\ Forall (fun g => fst g <= last qs 0) gs.

(** A landmark generator suspended in the wait loop holds a buffer that is
    not empty. *)
Definition buffered (g : Landmark.gen) : Prop :=
  match g with
  | Landmark.Wait _ shapes _ _ _ => shapes <> []
  | _ => True
  end.

(** [z] is [x] truncated toward zero. *)
Definition truncates (x : Q) (z : Z) : Prop :=
  (0 <= x -> inject_Z z <= x < inject_Z z + 1) /\
  (x <= 0 -> inject_Z z - 1 < x <= inject_Z z).

(** The rectangle the specification describes for the sub-pixel variant. *)
Definition subpixel_face (frame_width frame_height : Z) (r : track_row)
  : rect :=
  drectangle (row_left r * inject_Z frame_width)
             (row_top r * inject_Z frame_height)
             (row_right r * inject_Z frame_width)
             (row_bottom r * inject_Z frame_height).

(** A drawing command that takes a colour takes [c]. *)
Definition painted (c : rgb) (d : draw) : Prop :=
  match d with
  | putText _ _ => True
  | cv_rectangle _ _ c' _ => c' = c
  | cv_line _ _ c' _ => c' = c
  end.

(** ** Sample files *)

(** The file of the end-to-end scenario. *)
Definition two_rows : list track_row :=
  [ mkRow 1 0 0.1 0.1 0.3 0.3 "ok";
    mkRow 1 1 0.5 0.5 0.7 0.7 "ok" ].

(** A tracking file of three groups, not sorted on disk. *)
Definition three_groups : list track_row :=
  [ mkRow 3 0 0.1 0.1 0.3 0.3 "ok";
    mkRow 1 0 0.1 0.1 0.3 0.3 "ok";
    mkRow 2 1 0.5 0.5 0.7 0.7 "ok";
    mkRow 1 1 0.5 0.5 0.7 0.7 "ok" ].

(** A row whose edges fall between two pixels of a frame 100 wide. *)
Definition half_pixel_row : track_row :=
  mkRow 1 0 0.155 0.155 0.355 0.355 "ok".

(** A set of 68 landmarks with the nose at (50, 40) and (50, 60). *)
Definition nose_points : list (Q * Q) :=
  repeat (0, 0) 27 ++ [(50, 40)] ++ repeat (0, 0) 5 ++ [(50, 60)]
  ++ repeat (0, 0) 34.

(** A landmark row of five fields: one point and one more coordinate. *)
Definition odd_row : shape_row := [1; 0; 0.5; 0.5; 0.25].

Definition odd_shape : list shape_row :=
  [ odd_row; [2; 0; 0.5; 0.5; 0.25] ].

(** A landmark file whose rows are not in the order of their times. *)
Definition shape_unsorted : list shape_row :=
  [ [2; 0; 0.5; 0.5]; [1; 1; 0.25; 0.25];
    [2; 2; 0.75; 0.75]; [3; 3; 0.5; 0.5] ].

(** ** The drivers [track] and [landmark], and the labels of [demo] *)

(** What ['{:.3f}'] and ['{:.5f}'] write for [x], read back as a number:
    [x] rounded to [digits] decimals, ties to the even digit. *)
Definition format_f (digits : nat) (x : Q) : Q :=
  np_round (x * inject_Z (10 ^ Z.of_nat digits))
  / inject_Z (10 ^ Z.of_nat digits).

(** One sample of a track, as the tracking collaborator yields it at line
    236: [t, (left, top, right, bottom), status]. *)
Abbreviation sample := (Q * (Q * Q * Q * Q) * string)%type.

(** Lines 238-240, one line of [FACE_TEMPLATE]; the status is one token. *)
Definition face_line (identifier : nat) (s : sample) : track_row :=
  let '(t, (left_, top_, right_, bottom_), status) := s in
  mkRow (format_f 3 t) (Z.of_nat identifier)
        (format_f 3 left_) (format_f 3 top_)
        (format_f 3 right_) (format_f 3 bottom_) status.

(** Lines 234-242, [enumerate] counting from [identifier]: the lines of one
    track after those of the tracks before it. *)
Fixpoint track_from (identifier : nat) (tracks : list (list sample))
  : list track_row :=
  match tracks with
  | [] => []
  | tr :: tracks' =>
      map (face_line identifier) tr ++ track_from (S identifier) tracks'
  end.

(** [track], given the tracks of [tracking(video, shot)]: the rows of the
    file it writes. *)
Definition track (tracks : list (list sample)) : list track_row :=
  track_from 0 tracks.

Section Landmark_driver.

Variables frame_width frame_height : Z.

(** The frames of the video and the landmark collaborator
    [face._get_landmarks(rgb, boundingBox)]. *)
Variable image : Type.
Variable get_landmarks : image -> rect -> list (Q * Q).

(** Lines 269-274, one line of the landmark file. *)
Definition landmark_line (T : Q) (identifier : Z) (landmarks : list (Q * Q))
  : shape_row :=
  format_f 3 T :: inject_Z identifier
  :: flat_map (fun p => [ format_f 5 (fst p / inject_Z frame_width);
                          format_f 5 (snd p / inject_Z frame_height) ])
              landmarks.

(** Lines 265-274, the lines written for one frame and the reply
    [(T, faces)] to its timestamp. *)
Definition frame_lines (rgb : image) (T : Q) (faces : list face_item)
  : list shape_row :=
  map (fun f : face_item =>
         let '(identifier, boundingBox, _) := f in
         landmark_line T identifier (get_landmarks rgb boundingBox))
      faces.

(** Lines 258-276, the loop over the frames with the face generator in
    state [g]. *)
Fixpoint landmark_frames (g : Face.gen) (video : list (Q * image))
  : list shape_row :=
  match video with
  | [] => []
  | (timestamp, rgb) :: video' =>
      let (r, g') := Face.send frame_width frame_height false g timestamp in
      frame_lines rgb (fst r) (snd r) ++ landmark_frames g' video'
  end.

(** [landmark] (lines 244-276): the rows of the file it writes. *)
Definition landmark (video : list (Q * image)) (tracking : list track_row)
  : list shape_row :=
  landmark_frames (Face.getFaceGenerator tracking) video.

End Landmark_driver.

Section Features_driver.

Variables frame_width frame_height : Z.

(** The frames of the video and the chain of collaborators of lines
    295-298, from a frame and a landmark set to the embedding vector. *)
Variable image : Type.
Variable get_openface : image -> list (Q * Q) -> list Q.

(** Lines 300-304, one line of the feature file. *)
Definition feature_line (T : Q) (identifier : Z) (openface : list Q)
  : shape_row :=
  format_f 3 T :: inject_Z identifier :: map (format_f 5) openface.

(** Lines 294-304, the lines written for one frame and the reply
    [(T, shapes)] to its timestamp. *)
Definition feature_lines (rgb : image) (T : Q) (shapes : list landmark_item)
  : list shape_row :=
  map (fun s : landmark_item =>
         let '(identifier, landmarks) := s in
         feature_line T identifier (get_openface rgb landmarks))
      shapes.

(** Lines 290-306, the loop over the frames with the landmark generator in
    state [g]: the lines written, and the exception that ended the loop if
    one did. *)
Fixpoint features_frames (g : Landmark.gen) (video : list (Q * image))
  : list shape_row * option exn :=
  match video with
  | [] => ([], None)
  | (timestamp, rgb) :: video' =>
      match Landmark.send frame_width frame_height g timestamp with
      | inl e => ([], Some e)
      | inr (r, g') =>
          let (rows, e) := features_frames g' video' in
          (feature_lines rgb (fst r) (snd r) ++ rows, e)
      end
  end.

(** [features] (lines 278-306). *)
Definition features (video : list (Q * image)) (shape : list shape_row)
  : list shape_row * option exn :=
  features_frames (Landmark.getLandmarkGenerator shape) video.

End Features_driver.

(** The error of the label loop. *)
Inductive label_error : Type :=
| ValueError.

Section Labels.

(** [int(identifier)] on a token; [None] when it raises. *)
Variable int_of_string : string -> option Z.

(** Lines 385-389, over the lines of the file, each cut into its tokens by
    [line.strip().split()].  A line that has not two tokens cannot be
    unpacked.  [labels[identifier] = label] puts the binding in front of the
    older ones, where [labels_get] finds it first. *)
Fixpoint load_labels (labels : list (Z * string)) (lines : list (list string))
  : label_error + list (Z * string) :=
  match lines with
  | [] => inr labels
  | [identifier; label] :: lines' =>
      match int_of_string identifier with
      | None => inl ValueError
      | Some identifier => load_labels ((identifier, label) :: labels) lines'
      end
  | _ :: _ => inl ValueError
  end.

End Labels.

(** Lines 393-399: the clip made by [fl] calls [overlay] for each frame it
    is asked for while the cropped clip is encoded.  [timestamps] are the
    times of these calls, in the order of the calls; the result is the
    frames drawn, and the exception that ended the encoding if one did. *)
Fixpoint demo_frames (frame_width frame_height : Z) (shift : Q)
         (labels : list (Z * string)) (height : Z)
         (st : overlay_state) (timestamps : list Q)
  : list (list draw) * option exn :=
  match timestamps with
  | [] => ([], None)
  | timestamp :: timestamps' =>
      match overlay frame_width frame_height shift labels height st timestamp
      with
      | inl e => ([], Some e)
      | inr (ds, st') =>
          let (frames, e) :=
            demo_frames frame_width frame_height shift labels height st'
                        timestamps' in
          (ds :: frames, e)
      end
  end.

(** ** What the further statements are about *)

(** The replies that deliver a group. *)
Definition deliveries {I : Type} (rs : list (reply I)) : list (reply I) :=
  filter (fun r => match snd r with [] => false | _ :: _ => true end) rs.

(** The rows of a landmark file that convert, converted. *)
Definition landmark_rows (frame_width frame_height : Z)
           (shape : list shape_row) : list (Q * landmark_item) :=
  flat_map (fun row =>
              match Landmark.convert frame_width frame_height row with
              | inr x => [x]
              | inl _ => []
              end) shape.

(** Every row has a time, an identifier and one point at least. *)
Definition well_formed (shape : list shape_row) : Prop :=
  Forall (fun row => (4 <= List.length row)%nat) shape.

(** The rows of a landmark file in the order of their times. *)
Definition shape_ascending (shape : list shape_row) : Prop :=
  StronglySorted (fun a b => hd 0 a <= hd 0 b) shape.

(** The groups of the rows a suspended landmark generator has buffered, has
    in hand and has still to read. *)
Definition landmark_groups (frame_width frame_height : Z)
           (g : Landmark.gen) : list (reply landmark_item) :=
  let rows := landmark_rows frame_width frame_height in
  match g with
  | Landmark.Start shape => groups fst snd (rows shape)
  | Landmark.Wait currentT shapes T it rest =>
      (currentT, shapes) :: collect fst snd T [it] (rows rest)
  | Landmark.Deliver T it rest => collect fst snd T [it] (rows rest)
  | Landmark.End => []
  end.

(** The rows a suspended landmark generator has still to read. *)
Definition unread (g : Landmark.gen) : list shape_row :=
  match g with
  | Landmark.Start shape => shape
  | Landmark.Wait _ _ _ _ rest => rest
  | Landmark.Deliver _ _ rest => rest
  | Landmark.End => []
  end.

(** No two samples of a track are written with the same time. *)
Definition distinct_times (tr : list sample) : Prop :=
  ForallOrdPairs
    (fun a b : sample => ~ format_f 3 (fst (fst a)) == format_f 3 (fst (fst b)))
    tr.

(** ** Sample runs *)

(** Four frames, at the times 1, 2, 3 and 4. *)
Definition sample_video : list (Q * unit) :=
  [(1, tt); (2, tt); (3, tt); (4, tt)].

(** The shape file [landmark] writes for [three_groups] over these frames,
    with a collaborator that returns [nose_points] for every face. *)
Definition sample_shape : list shape_row :=
  landmark 100 100 unit (fun _ _ => nose_points) sample_video three_groups.

(** * Properties *)

(** ** The model on sample inputs *)

Example int_truncates_toward_zero :
  int 69.9 = 69%Z /\ int (-2.5) = (-2)%Z /\ int 30 = 30%Z.
Proof. repeat split. Qed.

Example np_round_ties_to_even :
  np_round 2.5 = 2 /\ np_round 3.5 = 4 /\ np_round 2.6 = 3.
Proof. repeat split. Qed.

Example pairwise_drops_odd_element :
  pairwise [1; 2; 3; 4; 5]%Z = [(1, 2); (3, 4)]%Z.
Proof. reflexivity. Qed.

Example sort_values_three_groups :
  map row_t (sort_values three_groups) = [1; 1; 2; 3].
Proof. reflexivity. Qed.

(** The groups of times 1 and 2 are held until a query reaches them; the
    group of time 3 is in the buffer when the rows run out. *)
Example replay_three_groups :
  Face.replay 100 100 false three_groups [0.9; 1; 1.2; 5; 5; 5]
  = [ (0.9, []);
      (1, [(0%Z, rectangle 10 10 30 30, "ok"%string);
           (1%Z, rectangle 50 50 70 70, "ok"%string)]);
      (1.2, []);
      (2, [(1%Z, rectangle 50 50 70 70, "ok"%string)]);
      (5, []); (5, []) ].
Proof. reflexivity. Qed.

Example color_of_negative_identifier : color_of (-1) = (255, 80, 5)%Z.
Proof. reflexivity. Qed.

(** ** Arithmetic *)

Lemma Qgt_bool_true (a b : Q) : Qgt_bool a b = true <-> b < a.
Proof.
  unfold Qgt_bool. rewrite negb_true_iff, <- not_true_iff_false, Qle_bool_iff.
  split; [apply Qnot_le_lt | apply Qlt_not_le].
Qed.

Lemma Qgt_bool_false (a b : Q) : Qgt_bool a b = false <-> a <= b.
Proof.
  unfold Qgt_bool. rewrite negb_false_iff. apply Qle_bool_iff.
Qed.

Lemma Qeq_bool_false (a b : Q) : Qeq_bool a b = false <-> ~ a == b.
Proof.
  rewrite <- not_true_iff_false, Qeq_bool_iff. reflexivity.
Qed.

(** ** [sort_values] sorts *)

Lemma insert_row_perm r l : Permutation (insert_row r l) (r :: l).
Proof.
  induction l as [|x l IH]; simpl; [reflexivity|].
  destruct (Qle_bool (row_t r) (row_t x)); [reflexivity|].
  rewrite IH. apply perm_swap.
Qed.

Lemma sort_values_perm l : Permutation (sort_values l) l.
Proof.
  induction l as [|r l IH]; simpl; [reflexivity|].
  rewrite insert_row_perm. now constructor.
Qed.

Lemma insert_row_ascending r l : ascending l -> ascending (insert_row r l).
Proof.
  unfold ascending. induction l as [|x l IH]; simpl; intros Hs.
  - repeat constructor.
  - destruct (Qle_bool (row_t r) (row_t x)) eqn:E.
    + apply Qle_bool_iff in E. constructor; [assumption|].
      inversion Hs as [|? ? _ Hx]; subst. constructor; [assumption|].
      eapply Forall_impl; [|exact Hx]. intros y Hy; simpl in *. lra.
    + assert (Hlt : row_t x < row_t r).
      { apply Qnot_le_lt. intro H. apply Qle_bool_iff in H. congruence. }
      inversion Hs as [|? ? Hl Hx]; subst. constructor; [auto|].
      eapply Permutation_Forall; [symmetry; apply insert_row_perm|].
      constructor; [lra | assumption].
Qed.

Lemma sort_values_ascending l : ascending (sort_values l).
Proof.
  induction l as [|r l IH]; simpl.
  - constructor.
  - now apply insert_row_ascending.
Qed.

(** ** The face generator follows the protocol *)

Section Groups_facts.

Context {R I : Type}.
Variable time : R -> Q.
Variable conv : R -> I.

Lemma collect_not_nil c buf rest : collect time conv c buf rest <> [].
Proof.
  revert c buf. induction rest as [|r rest IH]; intros c buf; simpl.
  - discriminate.
  - destruct (Qeq_bool (time r) c); [apply IH | discriminate].
Qed.

Lemma removelast_collect_cons g c buf rest :
  removelast (g :: collect time conv c buf rest)
  = g :: removelast (collect time conv c buf rest).
Proof.
  simpl. destruct (collect time conv c buf rest) eqn:E; [|reflexivity].
  now apply collect_not_nil in E.
Qed.

End Groups_facts.

Section Face_refinement.

Variables frame_width frame_height : Z.
Variable double : bool.

#[local] Abbreviation item := (Face.item frame_width frame_height double).
#[local] Abbreviation send := (Face.send frame_width frame_height double).
#[local] Abbreviation run := (Face.run frame_width frame_height double).
#[local] Abbreviation for_loop := (Face.for_loop frame_width frame_height double).
#[local] Abbreviation replay := (Face.replay frame_width frame_height double).
#[local] Abbreviation pend := (pending frame_width frame_height double).

Lemma for_loop_serve rest : forall t c faces qs,
  serve (removelast (collect row_t item c faces rest)) (t :: qs)
  = fst (for_loop t (Some c) faces rest)
    :: serve (pend (snd (for_loop t (Some c) faces rest))) qs.
Proof.
  induction rest as [|r rest IH]; intros t c faces qs.
  - reflexivity.
  - cbn [collect Face.for_loop]. destruct (Qeq_bool (row_t r) c).
    + apply IH.
    + rewrite removelast_collect_cons. unfold Face.wait_loop.
      cbn [serve fst]. destruct (Qgt_bool c t); cbn [fst snd].
      * unfold pending. cbn [face_groups].
        now rewrite removelast_collect_cons.
      * reflexivity.
Qed.

Lemma send_serve g t qs :
  serve (pend g) (t :: qs)
  = fst (send g t) :: serve (pend (snd (send g t))) qs.
Proof.
  destruct g as [tracking|c faces T it rest|T it rest|].
  - destruct tracking as [|r rest]; [reflexivity|].
    apply (for_loop_serve rest t (row_t r) [item r] qs).
  - unfold pending. cbn [face_groups Face.send].
    rewrite removelast_collect_cons. unfold Face.wait_loop.
    cbn [serve fst]. destruct (Qgt_bool c t); cbn [fst snd].
    + unfold pending. cbn [face_groups].
      now rewrite removelast_collect_cons.
    + reflexivity.
  - apply for_loop_serve.
  - reflexivity.
Qed.

(** The replies of the generator are those of the protocol over the
    groups it can still deliver. *)
Lemma run_serve qs : forall g, run g qs = serve (pend g) qs.
Proof.
  induction qs as [|q qs IH]; intros g; [reflexivity|].
  rewrite send_serve. cbn [Face.run].
  destruct (send g q) as [r g']. cbn [fst snd]. now rewrite IH.
Qed.

Lemma replay_serve tracking qs :
  replay tracking qs
  = serve (removelast (groups row_t item (sort_values tracking))) qs.
Proof. apply run_serve. Qed.

End Face_refinement.

(** ** Lists *)

Lemma filter_all {A : Type} (f : A -> bool) (l : list A) :
  Forall (fun x => f x = true) l -> filter f l = l.
Proof.
  induction 1 as [|x l Hx _ IH]; simpl; [reflexivity|].
  now rewrite Hx, IH.
Qed.

Lemma filter_none {A : Type} (f : A -> bool) (l : list A) :
  Forall (fun x => f x = false) l -> filter f l = [].
Proof.
  induction 1 as [|x l Hx _ IH]; simpl; [reflexivity|].
  now rewrite Hx.
Qed.

Lemma filter_perm {A : Type} (f : A -> bool) (l l' : list A) :
  Permutation l l' -> Permutation (filter f l) (filter f l').
Proof.
  induction 1 as [|x l l' _ IH|x y l|l l' l'' _ IH1 _ IH2]; simpl.
  - constructor.
  - destruct (f x); [now constructor | assumption].
  - destruct (f x), (f y); try reflexivity. apply perm_swap.
  - now transitivity (filter f l').
Qed.

Lemma removelast_sorted {A : Type} (P : A -> A -> Prop) (l : list A) :
  StronglySorted P l -> StronglySorted P (removelast l).
Proof.
  induction 1 as [|x l Hs IH Hx]; [constructor|].
  destruct l as [|y l]; [constructor|].
  change (StronglySorted P (x :: removelast (y :: l))).
  constructor; [exact IH|].
  rewrite Forall_forall in *. intros z Hz. apply Hx.
  clear - Hz. revert y Hz. induction l as [|w l IHl]; intros y Hz.
  - destruct Hz.
  - change (In z (y :: removelast (w :: l))) in Hz.
    destruct Hz as [->|Hz]; [now left | right; auto].
Qed.

Lemma removelast_In {A : Type} (x : A) (l : list A) :
  In x (removelast l) -> In x l.
Proof.
  induction l as [|y l IH]; [auto|].
  destruct l as [|w l]; [intros []|].
  change (In x (y :: removelast (w :: l)) -> In x (y :: w :: l)).
  intros [->|H]; [now left | right; auto].
Qed.

Lemma removelast_nth_error {A : Type} (l : list A) : forall k,
  (S k < List.length l)%nat -> nth_error (removelast l) k = nth_error l k.
Proof.
  induction l as [|y l IH]; intros k Hk; [reflexivity|].
  destruct l as [|w l]; [simpl in Hk; lia|].
  change (nth_error (y :: removelast (w :: l)) k = nth_error (y :: w :: l) k).
  destruct k as [|k]; [reflexivity|].
  apply IH. simpl in *. lia.
Qed.

(** ** The groups of a file sorted by time *)

Section Groups_of_sorted.

Variable conv : track_row -> face_item.

#[local] Abbreviation collect_rows := (collect row_t conv).

Lemma collect_nonempty rest : forall c buf,
  buf <> [] -> Forall (fun g => snd g <> []) (collect_rows c buf rest).
Proof.
  induction rest as [|r rest IH]; intros c buf Hbuf; simpl.
  - now constructor.
  - destruct (Qeq_bool (row_t r) c).
    + apply IH. now destruct buf.
    + constructor; [assumption|]. now apply IH.
Qed.

Lemma collect_concat rest : forall c buf,
  concat (map snd (collect_rows c buf rest)) = buf ++ map conv rest.
Proof.
  induction rest as [|r rest IH]; intros c buf; simpl.
  - now rewrite app_nil_r.
  - destruct (Qeq_bool (row_t r) c); simpl; rewrite IH.
    + now rewrite <- app_assoc.
    + reflexivity.
Qed.

(** With [acc] the rows of the open run, all of time [c], and [rest] sorted
    and not before [c]: the group times increase strictly from [c] on, and
    each group holds the rows of its time, all of them. *)
Lemma collect_sorted rest : forall acc c,
  Forall (fun r => row_t r == c) acc ->
  Forall (fun r => c <= row_t r) rest ->
  ascending rest ->
  increasing (collect_rows c (map conv acc) rest) /\
  Forall (fun g => c <= fst g /\
                   snd g = map conv (rows_at (fst g) (acc ++ rest)))
         (collect_rows c (map conv acc) rest).
Proof.
  unfold increasing, rows_at.
  induction rest as [|r rest IH]; intros acc c Hacc Hrest Hasc.
  - cbn [collect]. split; [repeat constructor|].
    constructor; [|constructor]. cbn [fst snd]. split; [lra|].
    rewrite app_nil_r, filter_all; [reflexivity|].
    eapply Forall_impl; [|exact Hacc]. intros x Hx. now apply Qeq_bool_iff.
  - apply Forall_cons_iff in Hrest as [Hr Hrest].
    apply StronglySorted_inv in Hasc as [Hasc Hle].
    cbn [collect]. destruct (Qeq_bool (row_t r) c) eqn:E.
    + apply Qeq_bool_iff in E.
      replace (map conv acc ++ [conv r]) with (map conv (acc ++ [r]))
        by apply map_app.
      destruct (IH (acc ++ [r]) (row_t r)) as [Hinc Hall]; [|assumption..|].
      { apply Forall_app. split; [|repeat constructor; lra].
        eapply Forall_impl; [|exact Hacc]. intros x Hx. simpl in Hx. lra. }
      split; [exact Hinc|].
      eapply Forall_impl; [|exact Hall]. intros g [Hg Hs].
      rewrite <- app_assoc in Hs. split; [lra | exact Hs].
    + apply Qeq_bool_false in E.
      assert (Hlt : c < row_t r) by lra.
      destruct (IH [r] (row_t r)) as [Hinc Hall]; [|assumption..|].
      { repeat constructor; lra. }
      split.
      * constructor; [exact Hinc|].
        eapply Forall_impl; [|exact Hall]. intros g [Hg _]. cbn [fst]. lra.
      * constructor.
        -- cbn [fst snd]. split; [lra|].
           rewrite filter_app, (filter_all _ acc), (filter_none _ (r :: rest)).
           ++ now rewrite app_nil_r.
           ++ constructor.
              ** apply Qeq_bool_false. lra.
              ** eapply Forall_impl; [|exact Hle]. intros x Hx. simpl in Hx.
                 apply Qeq_bool_false. lra.
           ++ eapply Forall_impl; [|exact Hacc]. intros x Hx.
              now apply Qeq_bool_iff.
        -- eapply Forall_impl; [|exact Hall]. intros g [Hg Hs].
           split; [lra|]. rewrite Hs, (filter_app _ acc), (filter_none _ acc).
           ++ reflexivity.
           ++ eapply Forall_impl; [|exact Hacc]. intros x Hx. simpl in Hx.
              apply Qeq_bool_false. lra.
Qed.

Lemma groups_sorted rows :
  ascending rows ->
  increasing (groups row_t conv rows) /\
  Forall (fun g => snd g = map conv (rows_at (fst g) rows) /\ snd g <> [])
         (groups row_t conv rows).
Proof.
  destruct rows as [|r rest]; intros Hasc.
  - split; constructor.
  - apply StronglySorted_inv in Hasc as [Hasc Hle]. cbn [groups].
    destruct (collect_sorted rest [r] (row_t r)) as [Hinc Hall];
      [repeat constructor; lra | assumption.. |].
    split; [exact Hinc|].
    pose proof (collect_nonempty rest (row_t r) [conv r]) as Hne.
    rewrite Forall_forall in *. intros g Hg. split.
    + now apply Hall.
    + apply Hne; [discriminate | exact Hg].
Qed.

(** The groups are the rows of the file, in the order of the sorted file. *)
Lemma groups_concat rows :
  concat (map snd (groups row_t conv rows)) = map conv rows.
Proof.
  destruct rows as [|r rest]; [reflexivity|].
  cbn [groups]. now rewrite collect_concat.
Qed.

End Groups_of_sorted.

(** ** The protocol *)

Section Serve_facts.

Context {I : Type}.
Implicit Types (gs : list (reply I)) (qs : list Q).

Lemma serve_length qs : forall gs, List.length (serve gs qs) = List.length qs.
Proof.
  induction qs as [|q qs IH]; intros gs; [reflexivity|].
  destruct gs as [|g gs]; simpl; [now rewrite IH|].
  destruct (Qgt_bool (fst g) q); simpl; now rewrite IH.
Qed.

Lemma serve_ok qs : forall gs,
  Forall (fun g => snd g <> []) gs -> Forall2 reply_ok qs (serve gs qs).
Proof.
  induction qs as [|q qs IH]; intros gs Hne; [constructor|].
  destruct gs as [|g gs]; cbn [serve].
  - constructor; [now left | now apply IH].
  - destruct (Qgt_bool (fst g) q) eqn:E.
    + constructor; [now left | now apply IH].
    + apply Qgt_bool_false in E. inversion Hne; subst.
      constructor; [right; now split | now apply IH].
Qed.

Lemma serve_In qs : forall gs r,
  In r (serve gs qs) -> snd r = [] \/ In r gs.
Proof.
  induction qs as [|q qs IH]; intros gs r; [intros []|].
  destruct gs as [|g gs]; cbn [serve].
  - intros [<-|H]; [now left | now apply IH].
  - destruct (Qgt_bool (fst g) q).
    + intros [<-|H]; [now left | now apply IH].
    + intros [<-|H]; [right; now left|].
      apply IH in H as [H|H]; [now left | right; now right].
Qed.

(** The non-empty replies come in the order of the groups. *)
Lemma serve_increasing qs : forall gs i j ri rj,
  increasing gs ->
  (i < j)%nat ->
  nth_error (serve gs qs) i = Some ri ->
  nth_error (serve gs qs) j = Some rj ->
  snd ri <> [] -> snd rj <> [] ->
  fst ri < fst rj.
Proof.
  induction qs as [|q qs IH]; intros gs i j ri rj Hinc Hij Hi Hj Hni Hnj.
  { now destruct i. }
  destruct j as [|j]; [lia|].
  assert (Hecho : forall gs',
    increasing gs' ->
    nth_error ((q, []) :: serve gs' qs) i = Some ri ->
    nth_error (serve gs' qs) j = Some rj -> fst ri < fst rj).
  { intros gs' Hinc' Hi' Hj'. destruct i as [|i].
    - injection Hi' as <-. now elim Hni.
    - apply (IH gs' i j); auto. lia. }
  destruct gs as [|g gs]; cbn [serve] in Hi, Hj.
  - now apply (Hecho []).
  - destruct (Qgt_bool (fst g) q).
    + now apply (Hecho (g :: gs)).
    + apply StronglySorted_inv in Hinc as [Hinc Hg].
      cbn [nth_error] in Hj. destruct i as [|i].
      * injection Hi as <-.
        apply nth_error_In, serve_In in Hj as [Hj|Hj]; [now elim Hnj|].
        rewrite Forall_forall in Hg. now apply Hg.
      * apply (IH gs i j); auto. lia.
Qed.

Lemma reaching_cons g q qs :
  reaching g (q :: qs)
  = ((if Qle_bool g q then 1 else 0) + reaching g qs)%nat.
Proof. unfold reaching. simpl. now destruct (Qle_bool g q). Qed.

(** The group at position [k] is delivered as soon as [k + 1] queries have
    reached its time: each of them delivers a group, this one or an earlier
    one. *)
Lemma serve_delivers qs : forall gs k g,
  increasing gs ->
  nth_error gs k = Some g ->
  (S k <= reaching (fst g) qs)%nat ->
  exists i, nth_error (serve gs qs) i = Some g.
Proof.
  induction qs as [|q qs IH]; intros gs k g Hinc Hk Hq.
  { unfold reaching in Hq. simpl in Hq. lia. }
  destruct gs as [|g0 gs]; [now destruct k|].
  rewrite reaching_cons in Hq. cbn [serve].
  destruct (Qgt_bool (fst g0) q) eqn:E.
  - apply Qgt_bool_true in E.
    assert (Hle : fst g0 <= fst g).
    { destruct k as [|k]; [injection Hk as <-; lra|].
      apply StronglySorted_inv in Hinc as [_ Hg].
      rewrite Forall_forall in Hg. cbn [nth_error] in Hk. apply nth_error_In in Hk.
      apply Qlt_le_weak. now apply Hg. }
    assert (Hq' : Qle_bool (fst g) q = false).
    { apply not_true_iff_false. rewrite Qle_bool_iff. lra. }
    rewrite Hq' in Hq. destruct (IH (g0 :: gs) k g) as [i Hi]; auto.
    now exists (S i).
  - destruct k as [|k].
    + injection Hk as <-. now exists 0%nat.
    + apply StronglySorted_inv in Hinc as [Hinc _].
      destruct (IH gs k g) as [i Hi]; auto.
      * destruct (Qle_bool (fst g) q); lia.
      * now exists (S i).
Qed.

End Serve_facts.

(** ** Statements about the face generator *)

Section Face_properties.

Variables frame_width frame_height : Z.
Variable double : bool.

#[local] Abbreviation item := (Face.item frame_width frame_height double).
#[local] Abbreviation replay := (Face.replay frame_width frame_height double).
#[local] Abbreviation the_groups := (file_groups frame_width frame_height double).

Lemma file_groups_sorted tracking :
  increasing (the_groups tracking) /\
  Forall (fun g => snd g = map item (rows_at (fst g) (sort_values tracking))
                   /\ snd g <> [])
         (the_groups tracking).
Proof. apply groups_sorted, sort_values_ascending. Qed.

Lemma pending_sorted tracking :
  increasing (removelast (the_groups tracking)).
Proof. apply removelast_sorted, file_groups_sorted. Qed.

Lemma pending_nonempty tracking :
  Forall (fun g : reply face_item => snd g <> [])
         (removelast (the_groups tracking)).
Proof.
  destruct (file_groups_sorted tracking) as [_ H].
  rewrite Forall_forall in *. intros g Hg. now apply H, removelast_In.
Qed.

Lemma replay_In tracking qs r :
  In r (replay tracking qs) -> snd r = [] \/ In r (the_groups tracking).
Proof.
  rewrite replay_serve. intros H.
  apply serve_In in H as [H|H]; [now left | right; now apply removelast_In].
Qed.

Lemma replay_increasing tracking qs i j ri rj :
  (i < j)%nat ->
  nth_error (replay tracking qs) i = Some ri ->
  nth_error (replay tracking qs) j = Some rj ->
  snd ri <> [] -> snd rj <> [] ->
  fst ri < fst rj.
Proof.
  rewrite replay_serve. apply serve_increasing, pending_sorted.
Qed.

Lemma replay_ok tracking qs : Forall2 reply_ok qs (replay tracking qs).
Proof. rewrite replay_serve. apply serve_ok, pending_nonempty. Qed.

(** The group buffered when the rows run out is in no reply. *)
Lemma last_group_never_delivered tracking qs gs g :
  the_groups tracking = gs ++ [g] -> ~ In g (replay tracking qs).
Proof.
  intros E Hin. destruct (file_groups_sorted tracking) as [Hinc Hall].
  rewrite replay_serve in Hin. fold (the_groups tracking) in Hin.
  rewrite E in *. rewrite removelast_last in Hin.
  apply serve_In in Hin as [Hin|Hin].
  - rewrite Forall_forall in Hall.
    destruct (Hall g) as [_ Hne]; [apply in_elt | now elim Hne].
  - clear - Hinc Hin. induction gs as [|x gs IH]; [destruct Hin|].
    apply StronglySorted_inv in Hinc as [Hinc Hx]. destruct Hin as [->|Hin].
    + rewrite Forall_forall in Hx.
      specialize (Hx g (in_elt g gs [])). lra.
    + now apply IH.
Qed.

End Face_properties.

Lemma run_End frame_width frame_height double qs :
  Face.run frame_width frame_height double Face.End qs
  = map (fun q => (q, [])) qs.
Proof. induction qs as [|q qs IH]; simpl; [reflexivity | now rewrite IH]. Qed.

(** C1, as amended.  For every tracking file, every sequence of queries and
    every group of the file that is followed by a later group: if the group
    is the (k+1)-th of the file and at least k+1 queries have reached its
    time, it is returned in exactly one reply. *)
Theorem group_delivered_exactly_once
        (frame_width frame_height : Z) (double : bool)
        (tracking : list track_row) (qs : list Q) (k : nat)
        (g : reply face_item) :
  nth_error (file_groups frame_width frame_height double tracking) k = Some g ->
  (S k < List.length (file_groups frame_width frame_height double tracking))%nat ->
  (S k <= reaching (fst g) qs)%nat ->
  exists! i,
    nth_error (Face.replay frame_width frame_height double tracking qs) i
    = Some g.
Proof.
  intros Hk Hlast Hq.
  destruct (file_groups_sorted frame_width frame_height double tracking)
    as [_ Hall].
  assert (Hne : snd g <> []).
  { rewrite Forall_forall in Hall. now apply Hall, (nth_error_In _ k). }
  destruct (serve_delivers qs
              (removelast (file_groups frame_width frame_height double tracking))
              k g) as [i Hi].
  - apply pending_sorted.
  - now rewrite removelast_nth_error.
  - assumption.
  - unfold file_groups in Hi. rewrite <- replay_serve in Hi. exists i. split; [exact Hi|].
    intros j Hj. destruct (Nat.lt_trichotomy i j) as [H|[H|H]]; [|exact H|].
    + pose proof (replay_increasing _ _ _ _ _ _ _ _ _ H Hi Hj Hne Hne). lra.
    + pose proof (replay_increasing _ _ _ _ _ _ _ _ _ H Hj Hi Hne Hne). lra.
Qed.

(** The group of time 2 of [three_groups], second of three, under two
    queries that have reached it. *)
Lemma group_delivered_exactly_once_witness :
  exists! i,
    nth_error (Face.replay 100 100 false three_groups [1; 5; 5]) i
    = Some (2, [(1%Z, rectangle 50 50 70 70, "ok"%string)]).
Proof.
  apply (group_delivered_exactly_once 100 100 false three_groups [1; 5; 5] 1).
  - reflexivity.
  - vm_compute. lia.
  - vm_compute. lia.
Defined.

(** C1, as stated, fails.  The file [three_groups] has the groups of times
    1, 2 and 3 and the single query 5 has reached them all; the one reply
    can carry one group only, and the group of time 2, which is not the
    last one, is in no reply. *)
Lemma one_query_delivers_one_group :
  nondecreasing [5] /\
  reaches_all [5] (file_groups 100 100 false three_groups) /\
  (exists g,
      nth_error (file_groups 100 100 false three_groups) 1 = Some g /\
      List.length (file_groups 100 100 false three_groups) = 3%nat /\
      forall i, nth_error (Face.replay 100 100 false three_groups [5]) i
                <> Some g) /\
  ~ every_group_once 100 100 false three_groups [5].
Proof.
  assert (Hnone : forall i,
    nth_error (Face.replay 100 100 false three_groups [5]) i
    <> Some (2, [(1%Z, rectangle 50 50 70 70, "ok"%string)])).
  { intros [|[|i]]; vm_compute; discriminate. }
  split; [|split; [|split]].
  - repeat constructor.
  - split; [discriminate|].
    vm_compute. repeat constructor; discriminate.
  - eexists. split; [reflexivity|]. split; [reflexivity | exact Hnone].
  - intros H.
    destruct (H (2, [(1%Z, rectangle 50 50 70 70, "ok"%string)]))
      as [i [Hi _]].
    + vm_compute. tauto.
    + exact (Hnone i Hi).
Qed.


(** C3.  For every tracking file and every sequence of queries, a reply is
    empty or holds the records of the rows of one timestamp, all of them
    (in the order the sort left them); the non-empty replies have strictly
    increasing times, so the rows of one timestamp are in one reply at
    most. *)
Theorem group_atomicity
        (frame_width frame_height : Z) (double : bool)
        (tracking : list track_row) (qs : list Q) :
  (forall r,
      In r (Face.replay frame_width frame_height double tracking qs) ->
      snd r = [] \/
      Permutation (snd r)
                  (map (Face.item frame_width frame_height double)
                       (rows_at (fst r) tracking))) /\
  (forall i j ri rj,
      (i < j)%nat ->
      nth_error (Face.replay frame_width frame_height double tracking qs) i
      = Some ri ->
      nth_error (Face.replay frame_width frame_height double tracking qs) j
      = Some rj ->
      snd ri <> [] -> snd rj <> [] -> fst ri < fst rj).
Proof.
  split.
  - intros r Hr. apply replay_In in Hr as [Hr|Hr]; [now left | right].
    destruct (file_groups_sorted frame_width frame_height double tracking)
      as [_ Hall].
    rewrite Forall_forall in Hall. destruct (Hall r Hr) as [-> _].
    apply Permutation_map, filter_perm, sort_values_perm.
  - apply replay_increasing.
Qed.

(** The first delivery of [three_groups] holds the two rows of time 1. *)
Lemma group_atomicity_witness :
  Permutation [(0%Z, rectangle 10 10 30 30, "ok"%string);
               (1%Z, rectangle 50 50 70 70, "ok"%string)]
              (map (Face.item 100 100 false) (rows_at 1 three_groups)).
Proof.
  destruct (group_atomicity 100 100 false three_groups [1; 5]) as [H _].
  destruct (H (1, [(0%Z, rectangle 10 10 30 30, "ok"%string);
                   (1%Z, rectangle 50 50 70 70, "ok"%string)])) as [E|P].
  - left. reflexivity.
  - discriminate E.
  - exact P.
Defined.

(** C6.  On a file without rows the generator is primed without an error
    and answers every query with the empty reply. *)
Theorem empty_file_replies_empty
        (frame_width frame_height : Z) (double : bool) (qs : list Q) :
  Face.getFaceGenerator [] = Face.Start [] /\
  Face.replay frame_width frame_height double [] qs
  = map (fun q => (q, [])) qs.
Proof.
  split; [reflexivity|].
  destruct qs as [|q qs]; [reflexivity|].
  unfold Face.replay, Face.getFaceGenerator. simpl. now rewrite run_End.
Qed.

(** ** The rectangles *)

Lemma int_truncates (x : Q) : truncates x (int x).
Proof.
  destruct x as [n d]. unfold truncates, int, Qle, Qlt, Qplus, Qminus, Qopp.
  cbn [Qnum Qden inject_Z].
  pose proof (Z.quot_rem' n (Zpos d)) as E.
  split; intros H; rewrite ?Z.mul_1_r in *; cbn [Z.mul] in H.
  - assert (Hn : (0 <= n)%Z) by lia.
    pose proof (Z.rem_bound_pos n (Zpos d) Hn ltac:(lia)). simpl. nia.
  - assert (Hn : (0 <= - n)%Z) by lia.
    pose proof (Z.rem_bound_pos (- n) (Zpos d) Hn ltac:(lia)) as B.
    rewrite Z.rem_opp_l' in B. simpl. nia.
Qed.



(** ** The overlay *)

(** C8.  The palette has 26 entries; the colour of a track identifier is
    the entry at the identifier modulo 26, whatever the identifier; and it
    is the colour of the bounding box and of the nose line the loop body
    draws for a face of that identifier. *)
Theorem color_assignment (identifier : Z) :
  List.length COLORS = 26%nat /\
  nth_error COLORS (Z.to_nat (identifier mod 26)) = Some (color_of identifier) /\
  forall labels landmarks i face status ds,
    draw_face labels landmarks i (identifier, face, status) = inr ds ->
    exists pt1 pt2 ds',
      ds = cv_rectangle pt1 pt2 (color_of identifier) 2 :: ds' /\
      Forall (painted (color_of identifier)) ds'.
Proof.
  split; [reflexivity|]. split.
  - unfold color_of. change (Z.of_nat (List.length COLORS)) with 26%Z.
    apply nth_error_nth'. change (List.length COLORS) with 26%nat.
    pose proof (Z.mod_pos_bound identifier 26 ltac:(lia)). lia.
  - intros labels landmarks i face status ds H. unfold draw_face in H.
    destruct landmarks as [lms|].
    + unfold draw_nose in H.
      destruct (nth_error lms i) as [[lid pts]|]; [|discriminate].
      destruct (nth_error pts 27) as [p27|]; [|discriminate].
      destruct (nth_error pts 33) as [p33|]; [|discriminate].
      injection H as <-. do 3 eexists. split; [reflexivity|].
      repeat constructor.
    + injection H as <-. do 3 eexists. split; [reflexivity|].
      repeat constructor.
Qed.

(** The box of a face of identifier 25, without landmarks. *)
Lemma color_assignment_witness :
  exists pt1 pt2 ds',
    [ cv_rectangle (10, 10)%Z (30, 30)%Z (255, 80, 5)%Z 2;
      putText (TrackerId 25) (10, 45)%Z;
      putText (Label "") (10, 3)%Z ]
    = cv_rectangle pt1 pt2 (color_of 25) 2 :: ds' /\
    Forall (painted (color_of 25)) ds'.
Proof.
  destruct (color_assignment 25) as [_ [_ H]].
  apply (H [] None 0%nat (drectangle 10 10 30 30) "ok"%string).
  reflexivity.
Defined.

Lemma draw_faces_nose labels lms faces : forall n ds,
  draw_faces labels (Some lms) n faces = inr ds ->
  forall i identifier face status,
    nth_error faces i = Some (identifier, face, status) ->
    exists lid pts p27 p33,
      nth_error lms (n + i) = Some (lid, pts) /\
      nth_error pts 27 = Some p27 /\ nth_error pts 33 = Some p33 /\
      In (cv_line (int (fst p27), int (snd p27))
                  (int (fst p33), int (snd p33)) (color_of identifier) 1) ds.
Proof.
  induction faces as [|[[id0 face0] st0] faces IH]; intros n ds H i id face st Hi.
  { now destruct i. }
  cbn [draw_faces] in H.
  destruct (draw_face labels (Some lms) n (id0, face0, st0)) as [e|ds0] eqn:E0;
    [discriminate|].
  destruct (draw_faces labels (Some lms) (S n) faces) as [e|ds1] eqn:E1;
    [discriminate|].
  injection H as <-. destruct i as [|i].
  - injection Hi as -> -> ->. rewrite Nat.add_0_r.
    unfold draw_face, draw_nose in E0.
    destruct (nth_error lms n) as [[lid pts]|]; [|discriminate].
    destruct (nth_error pts 27) as [p27|] eqn:E27; [|discriminate].
    destruct (nth_error pts 33) as [p33|] eqn:E33; [|discriminate].
    injection E0 as <-. exists lid, pts, p27, p33.
    split; [reflexivity|]. split; [exact E27|]. split; [exact E33|].
    apply in_or_app. left. simpl. tauto.
  - destruct (IH (S n) ds1 E1 i id face st Hi)
      as (lid & pts & p27 & p33 & H1 & H2 & H3 & H4).
    exists lid, pts, p27, p33. rewrite <- Nat.add_succ_comm.
    split; [exact H1|]. split; [exact H2|]. split; [exact H3|].
    apply in_or_app. now right.
Qed.

Lemma draw_faces_relabel labels (relabel : Z -> Z) lms faces : forall n,
  draw_faces labels (Some (map (fun it => (relabel (fst it), snd it)) lms))
             n faces
  = draw_faces labels (Some lms) n faces.
Proof.
  induction faces as [|[[id0 face0] st0] faces IH]; intros n; [reflexivity|].
  cbn [draw_faces]. rewrite IH.
  replace (draw_face labels
             (Some (map (fun it => (relabel (fst it), snd it)) lms))
             n (id0, face0, st0))
    with (draw_face labels (Some lms) n (id0, face0, st0)); [reflexivity|].
  unfold draw_face, draw_nose. rewrite nth_error_map.
  now destruct (nth_error lms n) as [[lid pts]|].
Qed.

Lemma draw_face_error labels landmarks n f e :
  draw_face labels landmarks n f = inl e -> e = IndexError.
Proof.
  destruct f as [[id0 face0] st0]. unfold draw_face, draw_nose.
  destruct landmarks as [lms|]; [|discriminate].
  destruct (nth_error lms n) as [[lid pts]|]; [|congruence].
  destruct (nth_error pts 27); [|congruence].
  destruct (nth_error pts 33); [discriminate | congruence].
Qed.

Lemma draw_face_in_bounds labels lms n f ds :
  draw_face labels (Some lms) n f = inr ds -> (n < List.length lms)%nat.
Proof.
  destruct f as [[id0 face0] st0]. unfold draw_face, draw_nose.
  destruct (nth_error lms n) eqn:E; [|discriminate].
  intros _. apply nth_error_Some. congruence.
Qed.

Lemma draw_faces_short labels lms faces : forall n,
  (n <= List.length lms < n + List.length faces)%nat ->
  draw_faces labels (Some lms) n faces = inl IndexError.
Proof.
  induction faces as [|f faces IH]; intros n Hlen; cbn [draw_faces].
  - simpl in Hlen. lia.
  - destruct (draw_face labels (Some lms) n f) as [e|ds] eqn:E.
    + now rewrite (draw_face_error _ _ _ _ _ E).
    + apply draw_face_in_bounds in E. rewrite IH; [reflexivity|].
      simpl in Hlen. lia.
Qed.



(** ** The landmark rows *)

Lemma pairwise_length {A : Type} (n : nat) : forall l : list A,
  (List.length l = 2 * n \/ List.length l = 2 * n + 1)%nat ->
  List.length (pairwise l) = n.
Proof.
  induction n as [|n IH]; intros l Hl.
  - destruct l as [|a [|b l]]; simpl in *; try reflexivity; lia.
  - destruct l as [|a [|b l]]; simpl in *; try lia.
    f_equal. apply IH. lia.
Qed.

(** C5, as amended.  A landmark row of 2 + 2N fields, N at least 1, is
    converted to N points; so is a row of 2 + 2N + 1 fields, whose last
    field is left out, and no error is raised. *)
Theorem landmark_point_count
        (frame_width frame_height : Z) (row : shape_row) (N : nat) :
  (1 <= N)%nat ->
  (List.length row = 2 + 2 * N \/ List.length row = 2 + 2 * N + 1)%nat ->
  exists T identifier landmarks,
    Landmark.convert frame_width frame_height row
    = inr (T, (identifier, landmarks)) /\
    List.length landmarks = N.
Proof.
  intros HN Hlen.
  destruct row as [|T [|identifier rest]]; try (simpl in Hlen; lia).
  assert (Hp : List.length (pairwise rest) = N).
  { apply pairwise_length. simpl in Hlen. lia. }
  unfold Landmark.convert. cbn [nth_error skipn].
  destruct (pairwise rest) as [|p ps] eqn:E; [simpl in Hp; lia|].
  do 3 eexists. split; [reflexivity|].
  now rewrite length_map.
Qed.

(** The row of five fields, with N = 1. *)
Lemma landmark_point_count_witness :
  exists T identifier landmarks,
    Landmark.convert 100 100 odd_row = inr (T, (identifier, landmarks)) /\
    List.length landmarks = 1%nat.
Proof.
  apply (landmark_point_count 100 100 odd_row 1).
  - lia.
  - right. reflexivity.
Defined.

(** C5, as stated, fails: a row of 5 = 2 + 2 * 1 + 1 fields is converted to
    one point, and the replay of a file of such rows delivers it and raises
    nothing. *)
Lemma odd_row_is_not_rejected :
  List.length odd_row = (2 + 2 * 1 + 1)%nat /\
  Landmark.convert 100 100 odd_row = inr (1, (0%Z, [(50, 50)])) /\
  Landmark.replay 100 100 odd_shape [1.5; 3]
  = ([(1, [(0%Z, [(50, 50)])]); (3, [])], None).
Proof. repeat split. Qed.

(** A row of two fields has no point to convert, and line 180 raises. *)
Lemma two_field_row_raises (frame_width frame_height : Z) (T identifier : Q) :
  Landmark.convert frame_width frame_height [T; identifier] = inl IndexError.
Proof. reflexivity. Qed.

(** C4: the code on a landmark file that is not sorted.  The tracking file
    is sorted by [sort_values] whatever its order on disk; the landmark file
    is replayed in the order of its rows, here the times 2, 1, 2, and the
    rows of time 2 come in two replies. *)
Theorem landmark_rows_in_file_order :
  (forall tracking,
      ascending (sort_values tracking) /\
      Permutation (sort_values tracking) tracking) /\
  Landmark.getLandmarkGenerator shape_unsorted = Landmark.Start shape_unsorted /\
  Landmark.replay 100 100 shape_unsorted [5; 5; 5; 5]
  = ([ (2, [(0%Z, [(50, 50)])]); (1, [(1%Z, [(25, 25)])]);
       (2, [(2%Z, [(75, 75)])]); (5, []) ], None).
Proof.
  split; [|split; reflexivity].
  intros tracking. split; [apply sort_values_ascending | apply sort_values_perm].
Qed.

(** ** The time of a reply *)

Lemma reply_ok_le {I : Type} (q : Q) (r : reply I) :
  reply_ok q r -> fst r <= q.
Proof. intros [->|[_ H]]; [apply Qle_refl | exact H]. Qed.

Section Landmark_properties.

Variables frame_width frame_height : Z.

#[local] Abbreviation lsend := (Landmark.send frame_width frame_height).
#[local] Abbreviation lrun := (Landmark.run frame_width frame_height).
#[local] Abbreviation lfor_loop := (Landmark.for_loop frame_width frame_height).

Lemma landmark_wait_loop_ok t c shapes T it rest :
  shapes <> [] ->
  reply_ok t (fst (Landmark.wait_loop t c shapes T it rest)) /\
  buffered (snd (Landmark.wait_loop t c shapes T it rest)).
Proof.
  intros Hne. unfold Landmark.wait_loop.
  destruct (Qgt_bool c t) eqn:E; cbn [fst snd buffered].
  - split; [now left | exact Hne].
  - apply Qgt_bool_false in E. split; [right; now split | exact I].
Qed.

Lemma landmark_for_loop_ok rest : forall t c shapes r g',
  shapes <> [] ->
  lfor_loop t (Some c) shapes rest = inr (r, g') ->
  reply_ok t r /\ buffered g'.
Proof.
  induction rest as [|row rest IH]; intros t c shapes r g' Hne H;
    cbn [Landmark.for_loop] in H.
  - injection H as <- <-. split; [now left | exact I].
  - destruct (Landmark.convert frame_width frame_height row) as [e|[T it]];
      [discriminate|].
    destruct (Qeq_bool T c).
    + refine (IH _ _ (shapes ++ [it]) _ _ _ H). now destruct shapes.
    + injection H as H. pose proof (landmark_wait_loop_ok t c shapes T it rest Hne) as W.
      rewrite H in W. exact W.
Qed.

Lemma landmark_send_ok g t r g' :
  buffered g -> lsend g t = inr (r, g') -> reply_ok t r /\ buffered g'.
Proof.
  destruct g as [shape|c shapes T it rest|T it rest|]; intros Hb H;
    cbn [Landmark.send] in H.
  - destruct shape as [|row rest]; cbn [Landmark.for_loop] in H.
    + injection H as <- <-. split; [now left | exact I].
    + destruct (Landmark.convert frame_width frame_height row) as [e|[T it]];
        [discriminate|].
      refine (landmark_for_loop_ok _ _ _ ([] ++ [it]) _ _ _ H). discriminate.
  - injection H as H. pose proof (landmark_wait_loop_ok t c shapes T it rest Hb) as W.
    rewrite H in W. exact W.
  - refine (landmark_for_loop_ok _ _ _ [it] _ _ _ H). discriminate.
  - injection H as <- <-. split; [now left | exact I].
Qed.

Lemma landmark_run_ok qs : forall g,
  buffered g ->
  Forall2 reply_ok (firstn (List.length (fst (lrun g qs))) qs) (fst (lrun g qs)).
Proof.
  induction qs as [|q qs IH]; intros g Hb; [constructor|].
  cbn [Landmark.run]. destruct (lsend g q) as [e|[r g']] eqn:E; [constructor|].
  apply landmark_send_ok in E as [Hr Hb']; [|exact Hb].
  specialize (IH g' Hb'). destruct (lrun g' qs) as [rs e].
  cbn [fst List.length firstn] in *. now constructor.
Qed.

End Landmark_properties.

(** C10.  For both generators, every file and every sequence of queries:
    the reply to a query [q] is either the empty echo [(q, [])] of the wait
    loop and of the final loop, or a delivery that is not empty and whose
    time [q] has reached; in both cases its time is at most [q].  The
    landmark replies are those produced up to a possible exception. *)
Theorem reply_time_bounded
        (frame_width frame_height : Z) (double : bool)
        (tracking : list track_row) (shape : list shape_row) (qs : list Q) :
  Forall2 (fun q r => reply_ok q r /\ fst r <= q) qs
          (Face.replay frame_width frame_height double tracking qs) /\
  Forall2 (fun q r => reply_ok q r /\ fst r <= q)
          (firstn (List.length
                     (fst (Landmark.replay frame_width frame_height shape qs)))
                  qs)
          (fst (Landmark.replay frame_width frame_height shape qs)).
Proof.
  split.
  - eapply Forall2_impl; [|apply replay_ok].
    intros q r H. split; [exact H | now apply reply_ok_le].
  - eapply Forall2_impl; [|apply landmark_run_ok; exact I].
    intros q r H. split; [exact H | now apply reply_ok_le].
Qed.

(** * Further properties of the code *)

(** ** The order of the deliveries *)

Section Serve_order.

Context {I : Type}.
Implicit Types (gs : list (reply I)) (qs : list Q).

Lemma serve_deliveries qs : forall gs,
  Forall (fun g => snd g <> []) gs ->
  exists n, (n <= List.length gs)%nat /\
            deliveries (serve gs qs) = firstn n gs.
Proof.
  induction qs as [|q qs IH]; intros gs Hne.
  { exists 0%nat. split; [lia | reflexivity]. }
  destruct gs as [|g gs]; cbn [serve].
  - destruct (IH [] Hne) as [n [Hn E]]. exists n. split; [exact Hn|].
    exact E.
  - destruct (Qgt_bool (fst g) q).
    + destruct (IH (g :: gs) Hne) as [n [Hn E]]. exists n.
      split; [exact Hn | exact E].
    + apply Forall_cons_iff in Hne as [Hg Hne].
      destruct (IH gs Hne) as [n [Hn E]]. exists (S n).
      split; [simpl; lia|]. unfold deliveries in *. cbn [filter firstn].
      destruct (snd g); [now elim Hg | now rewrite E].
Qed.

Lemma serve_no_hold_back qs : forall gs i j q ri rj,
  increasing gs ->
  Forall (fun g => snd g <> []) gs ->
  (i < j)%nat ->
  nth_error qs i = Some q ->
  nth_error (serve gs qs) i = Some ri -> snd ri = [] ->
  nth_error (serve gs qs) j = Some rj -> snd rj <> [] ->
  q < fst rj.
Proof.
  induction qs as [|q0 qs IH]; intros gs i j q ri rj Hinc Hne Hij Hq Hi Hei Hj Hnj.
  { now destruct i. }
  destruct j as [|j]; [lia|].
  destruct gs as [|g gs]; cbn [serve] in Hi, Hj; cbn [nth_error] in Hj.
  - apply nth_error_In, serve_In in Hj as [Hj|[]]. now elim Hnj.
  - destruct (Qgt_bool (fst g) q0) eqn:E; cbn [nth_error] in Hj.
    + destruct i as [|i].
      * injection Hq as <-. apply Qgt_bool_true in E.
        apply nth_error_In, serve_In in Hj as [Hj|Hj]; [now elim Hnj|].
        destruct Hj as [<-|Hj]; [exact E|].
        apply StronglySorted_inv in Hinc as [_ Hg].
        rewrite Forall_forall in Hg. specialize (Hg rj Hj). lra.
      * apply (IH (g :: gs) i j q ri rj); auto. lia.
    + destruct i as [|i].
      * injection Hi as <-. apply Forall_cons_iff in Hne as [Hg _].
        now elim Hg.
      * apply StronglySorted_inv in Hinc as [Hinc _].
        apply Forall_cons_iff in Hne as [_ Hne].
        apply (IH gs i j q ri rj); auto. lia.
Qed.

End Serve_order.

(** The replies that deliver something are, in their order, the first
    groups of the file, one group each and none left out between two; the
    last group of the file is never among them. *)
Theorem deliveries_are_first_groups
        (frame_width frame_height : Z) (double : bool)
        (tracking : list track_row) (qs : list Q) :
  exists n,
    (n <= List.length (file_groups frame_width frame_height double tracking) - 1)%nat /\
    deliveries (Face.replay frame_width frame_height double tracking qs)
    = firstn n (file_groups frame_width frame_height double tracking).
Proof.
  rewrite replay_serve. fold (file_groups frame_width frame_height double tracking).
  destruct (serve_deliveries qs
              (removelast (file_groups frame_width frame_height double tracking)))
    as [n [Hn E]]; [apply pending_nonempty|].
  exists n. rewrite E.
  destruct (file_groups frame_width frame_height double tracking) as [|g gs] eqn:G.
  { simpl in Hn. assert (n = 0%nat) by lia. subst. split; [lia | reflexivity]. }
  assert (Hlen : List.length (removelast (g :: gs)) = List.length gs).
  { destruct (exists_last (l := g :: gs) ltac:(discriminate)) as [l [a El]].
    rewrite El, removelast_last.
    apply (f_equal (@List.length _)) in El. rewrite length_app in El.
    simpl in El. lia. }
  rewrite Hlen in Hn. split; [simpl; lia|].
  destruct (Nat.eq_dec n (List.length gs)) as [->|Hneq].
  - rewrite <- Hlen at 1. rewrite firstn_all. apply removelast_firstn_len.
  - apply firstn_removelast. simpl. lia.
Qed.

(** A group is not held back once a query has reached it: when a query is
    answered with the empty reply, every group delivered later has a time
    the query had not reached. *)
Theorem no_group_held_back
        (frame_width frame_height : Z) (double : bool)
        (tracking : list track_row) (qs : list Q)
        (i j : nat) (q : Q) (ri rj : reply face_item) :
  (i < j)%nat ->
  nth_error qs i = Some q ->
  nth_error (Face.replay frame_width frame_height double tracking qs) i
  = Some ri ->
  snd ri = [] ->
  nth_error (Face.replay frame_width frame_height double tracking qs) j
  = Some rj ->
  snd rj <> [] ->
  q < fst rj.
Proof.
  rewrite replay_serve.
  apply serve_no_hold_back; [apply pending_sorted | apply pending_nonempty].
Qed.

(** The query 0.9 is answered empty; the group delivered next is of time 1. *)
Lemma no_group_held_back_witness : 0.9 < 1.
Proof.
  apply (no_group_held_back 100 100 false three_groups [0.9; 1] 0 1 0.9
           (0.9, [])
           (1, [(0%Z, rectangle 10 10 30 30, "ok"%string);
                (1%Z, rectangle 50 50 70 70, "ok"%string)])).
  - lia.
  - reflexivity.
  - reflexivity.
  - reflexivity.
  - reflexivity.
  - discriminate.
Defined.

(** The group of time 3 of [three_groups] under four queries past it. *)
Lemma last_group_never_delivered_witness :
  file_groups 100 100 false three_groups
  = [ (1, [(0%Z, rectangle 10 10 30 30, "ok"%string);
           (1%Z, rectangle 50 50 70 70, "ok"%string)]);
      (2, [(1%Z, rectangle 50 50 70 70, "ok"%string)]) ]
    ++ [(3, [(0%Z, rectangle 10 10 30 30, "ok"%string)])] /\
  ~ In (3, [(0%Z, rectangle 10 10 30 30, "ok"%string)])
       (Face.replay 100 100 false three_groups [5; 5; 5; 5]).
Proof.
  split; [reflexivity|].
  apply (last_group_never_delivered 100 100 false three_groups [5; 5; 5; 5]
           [ (1, [(0%Z, rectangle 10 10 30 30, "ok"%string);
                  (1%Z, rectangle 50 50 70 70, "ok"%string)]);
             (2, [(1%Z, rectangle 50 50 70 70, "ok"%string)]) ]).
  reflexivity.
Defined.

(** ** Truncation and rounding *)

Lemma int_inject_Z (z : Z) : int (inject_Z z) = z.
Proof. unfold int. simpl. apply Z.quot_1_r. Qed.

Lemma int_monotone (x y : Q) : x <= y -> (int x <= int y)%Z.
Proof.
  destruct x as [a b], y as [c d]. unfold Qle, int. cbn [Qnum Qden].
  intros H.
  rewrite <- (Z.quot_mul_cancel_r a (Zpos b) (Zpos d)) by lia.
  rewrite <- (Z.quot_mul_cancel_r c (Zpos d) (Zpos b)) by lia.
  rewrite (Z.mul_comm (Zpos d) (Zpos b)).
  apply Z.quot_le_mono; lia.
Qed.

Lemma np_round_comp (x y : Q) : x == y -> np_round x = np_round y.
Proof.
  intros H. unfold np_round. rewrite (Qfloor_comp x y H).
  assert (E : (x - inject_Z (Qfloor y) ?= 1 # 2)
              = (y - inject_Z (Qfloor y) ?= 1 # 2)).
  { apply Qcompare_comp; [now rewrite H | reflexivity]. }
  now rewrite E.
Qed.

(** [np_round] gives an integer at distance one half at most. *)
Lemma np_round_error (x : Q) :
  exists z : Z, np_round x = inject_Z z /\
                inject_Z z - (1 # 2) <= x <= inject_Z z + (1 # 2).
Proof.
  unfold np_round.
  pose proof (Qfloor_le x) as Hlo. pose proof (Qlt_floor x) as Hhi.
  rewrite inject_Z_plus in Hhi. change (inject_Z 1) with 1 in Hhi.
  assert (Hup : forall f, inject_Z (f + 1) == inject_Z f + 1).
  { intros f. now rewrite inject_Z_plus. }
  destruct (Qcompare_spec (x - inject_Z (Qfloor x)) (1 # 2)) as [E|E|E].
  - destruct (Z.even (Qfloor x)).
    + exists (Qfloor x). split; [reflexivity | lra].
    + exists (Qfloor x + 1)%Z. split; [reflexivity|]. rewrite Hup. lra.
  - exists (Qfloor x). split; [reflexivity | lra].
  - exists (Qfloor x + 1)%Z. split; [reflexivity|]. rewrite Hup. lra.
Qed.

Lemma inject_Z_near (z z' : Z) :
  inject_Z z' < inject_Z z + 1 -> inject_Z z < inject_Z z' + 1 -> z' = z.
Proof.
  intros H1 H2.
  assert (H1' : inject_Z z' < inject_Z (z + 1))
    by (rewrite inject_Z_plus; exact H1).
  assert (H2' : inject_Z z < inject_Z (z' + 1))
    by (rewrite inject_Z_plus; exact H2).
  rewrite <- Zlt_Qlt in H1', H2'. lia.
Qed.

(** A number at distance less than one half of an integer rounds to it. *)
Lemma np_round_near (y : Q) (z : Z) :
  inject_Z z - (1 # 2) < y < inject_Z z + (1 # 2) -> np_round y = inject_Z z.
Proof.
  intros [H1 H2]. destruct (np_round_error y) as [z' [-> [H3 H4]]].
  f_equal. apply inject_Z_near; lra.
Qed.

Lemma np_round_monotone (x y : Q) : x <= y -> np_round x <= np_round y.
Proof.
  intros H.
  destruct (np_round_error x) as [zx [Ex [Hx1 Hx2]]].
  destruct (np_round_error y) as [zy [Ey [Hy1 Hy2]]].
  destruct (Z.le_gt_cases zx zy) as [Hz|Hz].
  - rewrite Ex, Ey. now rewrite <- Zle_Qle.
  - assert (Hz' : inject_Z (zy + 1) <= inject_Z zx)
      by (rewrite <- Zle_Qle; lia).
    rewrite inject_Z_plus in Hz'. change (inject_Z 1) with 1 in Hz'.
    rewrite (np_round_comp x y) by lra. apply Qle_refl.
Qed.

Lemma scale_positive (digits : nat) : 0 < inject_Z (10 ^ Z.of_nat digits).
Proof.
  change 0 with (inject_Z 0). rewrite <- Zlt_Qlt.
  apply Z.pow_pos_nonneg; lia.
Qed.

Lemma format_f_monotone (digits : nat) (x y : Q) :
  x <= y -> format_f digits x <= format_f digits y.
Proof.
  intros H. unfold format_f. pose proof (scale_positive digits) as Hc.
  unfold Qdiv. apply Qmult_le_compat_r.
  - apply np_round_monotone. apply Qmult_le_compat_r; [exact H | lra].
  - apply Qinv_le_0_compat. lra.
Qed.

(** ** The rectangles stay in the frame *)

Lemma int_unit_interval (x : Q) (w : Z) :
  0 <= x <= 1 -> (0 <= w)%Z -> (0 <= int (x * inject_Z w) <= w)%Z.
Proof.
  intros [H0 H1] Hw.
  assert (HW : 0 <= inject_Z w)
    by (change 0 with (inject_Z 0); now rewrite <- Zle_Qle).
  split.
  - change 0%Z with (int 0). apply int_monotone.
    now apply Qmult_le_0_compat.
  - rewrite <- (int_inject_Z w) at 2. apply int_monotone.
    rewrite <- (Qmult_1_l (inject_Z w)) at 2.
    now apply Qmult_le_compat_r.
Qed.

(** A box of the file that lies in the unit square is replayed as a pixel
    rectangle that lies in the frame, its left edge not right of its right
    edge and its top edge not below its bottom edge, in both variants. *)
Theorem face_box_in_frame
        (frame_width frame_height : Z) (double : bool) (r : track_row) :
  (0 <= frame_width)%Z -> (0 <= frame_height)%Z ->
  0 <= row_left r -> row_left r <= row_right r -> row_right r <= 1 ->
  0 <= row_top r -> row_top r <= row_bottom r -> row_bottom r <= 1 ->
  let face := Face.make_face frame_width frame_height double r in
  0 <= rect_left face /\ rect_left face <= rect_right face /\
  rect_right face <= inject_Z frame_width /\
  0 <= rect_top face /\ rect_top face <= rect_bottom face /\
  rect_bottom face <= inject_Z frame_height.
Proof.
  intros Hw Hh Hl Hlr Hr Ht Htb Hb face.
  assert (HW : 0 <= inject_Z frame_width)
    by (change 0 with (inject_Z 0); now rewrite <- Zle_Qle).
  assert (HH : 0 <= inject_Z frame_height)
    by (change 0 with (inject_Z 0); now rewrite <- Zle_Qle).
  pose proof (int_unit_interval (row_left r) frame_width
                ltac:(split; lra) Hw) as [L0 _].
  pose proof (int_unit_interval (row_right r) frame_width
                ltac:(split; lra) Hw) as [_ R1].
  pose proof (int_unit_interval (row_top r) frame_height
                ltac:(split; lra) Hh) as [T0 _].
  pose proof (int_unit_interval (row_bottom r) frame_height
                ltac:(split; lra) Hh) as [_ B1].
  pose proof (int_monotone _ _
                (Qmult_le_compat_r _ _ (inject_Z frame_width) Hlr HW)) as LR.
  pose proof (int_monotone _ _
                (Qmult_le_compat_r _ _ (inject_Z frame_height) Htb HH)) as TB.
  rewrite Zle_Qle in L0, R1, T0, B1, LR, TB.
  subst face. unfold Face.make_face.
  destruct double; cbn [rect_left rect_right rect_top rect_bottom];
    repeat split; assumption.
Qed.

Lemma face_box_in_frame_witness :
  0 <= rect_left (Face.make_face 100 100 true half_pixel_row) /\
  rect_left (Face.make_face 100 100 true half_pixel_row)
  <= rect_right (Face.make_face 100 100 true half_pixel_row) /\
  rect_right (Face.make_face 100 100 true half_pixel_row) <= inject_Z 100 /\
  0 <= rect_top (Face.make_face 100 100 true half_pixel_row) /\
  rect_top (Face.make_face 100 100 true half_pixel_row)
  <= rect_bottom (Face.make_face 100 100 true half_pixel_row) /\
  rect_bottom (Face.make_face 100 100 true half_pixel_row) <= inject_Z 100.
Proof.
  apply (face_box_in_frame 100 100 true half_pixel_row);
    try (vm_compute; discriminate).
Defined.

(** ** [pairwise] *)

Lemma pairwise_flat_map {A B : Type} (f g : A -> B) (l : list A) :
  pairwise (flat_map (fun p => [f p; g p]) l) = map (fun p => (f p, g p)) l.
Proof. induction l as [|p l IH]; simpl; [reflexivity | now rewrite IH]. Qed.

Lemma pairwise_unpair {A : Type} (n : nat) : forall l : list A,
  (List.length l <= n)%nat ->
  exists tl, l = flat_map (fun p => [fst p; snd p]) (pairwise l) ++ tl /\
             (List.length tl <= 1)%nat.
Proof.
  induction n as [|n IH]; intros l Hl.
  - destruct l; [|simpl in Hl; lia]. exists []. split; [reflexivity | simpl; lia].
  - destruct l as [|a [|b l]].
    + exists []. split; [reflexivity | simpl; lia].
    + exists [a]. split; [reflexivity | simpl; lia].
    + destruct (IH l) as [tl [E Htl]]; [simpl in Hl; lia|].
      exists tl. split; [|exact Htl]. cbn [pairwise flat_map fst snd app].
      now rewrite <- E.
Qed.

(** [pairwise] loses nothing but an unpaired last element: the pairs, laid
    out again, are the list up to one element at most; and a list laid out
    from pairs gives back the pairs. *)
Theorem pairwise_round_trip {A : Type} :
  (forall l : list A,
      exists tl, l = flat_map (fun p => [fst p; snd p]) (pairwise l) ++ tl /\
                 (List.length tl <= 1)%nat) /\
  (forall ps : list (A * A),
      pairwise (flat_map (fun p => [fst p; snd p]) ps) = ps).
Proof.
  split.
  - intros l. now apply (pairwise_unpair (List.length l)).
  - intros ps. rewrite pairwise_flat_map.
    rewrite <- (map_id ps) at 2. apply map_ext. now intros [a b].
Qed.

(** ** The landmark file written by [landmark] and read back *)

(** An integer pixel coordinate, divided by a frame size below 100000,
    written with five decimals, and multiplied by the frame size again, is
    rounded to itself. *)
Lemma pixel_round_trip (size x : Z) :
  (0 < size < 100000)%Z ->
  np_round (format_f 5 (inject_Z x / inject_Z size) * inject_Z size)
  = inject_Z x.
Proof.
  intros [Hpos Hlt]. apply np_round_near. unfold format_f.
  change (inject_Z (10 ^ Z.of_nat 5)) with (inject_Z 100000).
  assert (HW : 0 < inject_Z size)
    by (change 0 with (inject_Z 0); now rewrite <- Zlt_Qlt).
  assert (HC : inject_Z size < inject_Z 100000) by (now rewrite <- Zlt_Qlt).
  assert (H5 : 0 < inject_Z 100000) by reflexivity.
  destruct (np_round_error (inject_Z x / inject_Z size * inject_Z 100000))
    as [k [-> [K1 K2]]].
  set (X := inject_Z x) in *. set (W := inject_Z size) in *.
  set (C := inject_Z 100000) in *. set (K := inject_Z k) in *.
  assert (Hr : 0 < W / C < 1).
  { split.
    - apply Qlt_shift_div_l; lra.
    - apply Qlt_shift_div_r; lra. }
  assert (E1 : (X / W * C) * (W / C) == X) by (field; split; lra).
  assert (E2 : K / C * W == K * (W / C)) by (field; lra).
  assert (L1 : (K - (1 # 2)) * (W / C) <= (X / W * C) * (W / C))
    by (apply Qmult_le_compat_r; lra).
  assert (L2 : (X / W * C) * (W / C) <= (K + (1 # 2)) * (W / C))
    by (apply Qmult_le_compat_r; lra).
  rewrite E1 in L1, L2. rewrite E2.
  assert (D1 : (K - (1 # 2)) * (W / C) == K * (W / C) - (1 # 2) * (W / C))
    by ring.
  assert (D2 : (K + (1 # 2)) * (W / C) == K * (W / C) + (1 # 2) * (W / C))
    by ring.
  rewrite D1 in L1. rewrite D2 in L2.
  set (P := K * (W / C)) in *. set (r := W / C) in *. lra.
Qed.

Lemma points_round_trip (frame_width frame_height : Z) (points : list (Z * Z)) :
  (0 < frame_width < 100000)%Z ->
  (0 < frame_height < 100000)%Z ->
  map (fun p => (np_round (fst p * inject_Z frame_width),
                 np_round (snd p * inject_Z frame_height)))
      (map (fun p => (format_f 5 (fst p / inject_Z frame_width),
                      format_f 5 (snd p / inject_Z frame_height)))
           (map (fun p => (inject_Z (fst p), inject_Z (snd p))) points))
  = map (fun p => (inject_Z (fst p), inject_Z (snd p))) points.
Proof.
  intros Hw Hh. rewrite !map_map. apply map_ext. intros q. cbn [fst snd].
  now rewrite !pixel_round_trip.
Qed.



(** ** Groups of rows sorted by time, for any kind of row *)

Section Groups_of_sorted_rows.

Context {R I : Type}.
Variable time : R -> Q.
Variable conv : R -> I.

Lemma collect_rows_nonempty rest : forall c buf,
  buf <> [] -> Forall (fun g => snd g <> []) (collect time conv c buf rest).
Proof.
  induction rest as [|r rest IH]; intros c buf Hbuf; simpl.
  - now constructor.
  - destruct (Qeq_bool (time r) c).
    + apply IH. now destruct buf.
    + constructor; [assumption|]. now apply IH.
Qed.

Lemma collect_rows_sorted rest : forall acc c,
  Forall (fun r => time r == c) acc ->
  Forall (fun r => c <= time r) rest ->
  StronglySorted (fun a b => time a <= time b) rest ->
  increasing (collect time conv c (map conv acc) rest) /\
  Forall (fun g =>
            c <= fst g /\
            snd g = map conv (filter (fun r => Qeq_bool (time r) (fst g))
                                     (acc ++ rest)))
         (collect time conv c (map conv acc) rest).
Proof.
  unfold increasing.
  induction rest as [|r rest IH]; intros acc c Hacc Hrest Hasc.
  - cbn [collect]. split; [repeat constructor|].
    constructor; [|constructor]. cbn [fst snd]. split; [lra|].
    rewrite app_nil_r, filter_all; [reflexivity|].
    eapply Forall_impl; [|exact Hacc]. intros x Hx. now apply Qeq_bool_iff.
  - apply Forall_cons_iff in Hrest as [Hr Hrest].
    apply StronglySorted_inv in Hasc as [Hasc Hle].
    cbn [collect]. destruct (Qeq_bool (time r) c) eqn:E.
    + apply Qeq_bool_iff in E.
      replace (map conv acc ++ [conv r]) with (map conv (acc ++ [r]))
        by apply map_app.
      destruct (IH (acc ++ [r]) (time r)) as [Hinc Hall]; [|assumption..|].
      { apply Forall_app. split; [|repeat constructor; lra].
        eapply Forall_impl; [|exact Hacc]. intros x Hx. simpl in Hx. lra. }
      split; [exact Hinc|].
      eapply Forall_impl; [|exact Hall]. intros g [Hg Hs].
      rewrite <- app_assoc in Hs. split; [lra | exact Hs].
    + apply Qeq_bool_false in E.
      assert (Hlt : c < time r) by lra.
      destruct (IH [r] (time r)) as [Hinc Hall]; [|assumption..|].
      { repeat constructor; lra. }
      split.
      * constructor; [exact Hinc|].
        eapply Forall_impl; [|exact Hall]. intros g [Hg _]. cbn [fst]. lra.
      * constructor.
        -- cbn [fst snd]. split; [lra|].
           rewrite filter_app, (filter_all _ acc), (filter_none _ (r :: rest)).
           ++ now rewrite app_nil_r.
           ++ constructor.
              ** apply Qeq_bool_false. lra.
              ** eapply Forall_impl; [|exact Hle]. intros x Hx. simpl in Hx.
                 apply Qeq_bool_false. lra.
           ++ eapply Forall_impl; [|exact Hacc]. intros x Hx.
              now apply Qeq_bool_iff.
        -- eapply Forall_impl; [|exact Hall]. intros g [Hg Hs].
           split; [lra|]. rewrite Hs, (filter_app _ acc), (filter_none _ acc).
           ++ reflexivity.
           ++ eapply Forall_impl; [|exact Hacc]. intros x Hx. simpl in Hx.
              apply Qeq_bool_false. lra.
Qed.

Lemma groups_of_sorted_rows rows :
  StronglySorted (fun a b => time a <= time b) rows ->
  increasing (groups time conv rows) /\
  Forall (fun g =>
            snd g = map conv (filter (fun r => Qeq_bool (time r) (fst g)) rows)
            /\ snd g <> [])
         (groups time conv rows).
Proof.
  destruct rows as [|r rest]; intros Hasc.
  - split; constructor.
  - apply StronglySorted_inv in Hasc as [Hasc Hle]. cbn [groups].
    destruct (collect_rows_sorted rest [r] (time r)) as [Hinc Hall];
      [repeat constructor; lra | assumption.. |].
    split; [exact Hinc|].
    pose proof (collect_rows_nonempty rest (time r) [conv r]) as Hne.
    rewrite Forall_forall in *. intros g Hg. split.
    + now apply Hall.
    + apply Hne; [discriminate | exact Hg].
Qed.

(** Whatever the order of the rows, a group is not empty. *)
Lemma groups_nonempty rows :
  Forall (fun g => snd g <> []) (groups time conv rows).
Proof.
  destruct rows as [|r rest]; [constructor|].
  apply collect_rows_nonempty. discriminate.
Qed.

End Groups_of_sorted_rows.

Lemma sorted_map {A : Type} (f : A -> Q) (l : list A) :
  StronglySorted Qle (map f l) ->
  StronglySorted (fun a b => f a <= f b) l.
Proof.
  induction l as [|x l IH]; intros H; [constructor|].
  cbn [map] in H. apply StronglySorted_inv in H as [Hs Hx].
  constructor; [now apply IH|].
  rewrite Forall_forall in *. intros y Hy. apply Hx. now apply in_map.
Qed.

Lemma map_sorted {A : Type} (f : A -> Q) (l : list A) :
  StronglySorted (fun a b => f a <= f b) l ->
  StronglySorted Qle (map f l).
Proof.
  induction 1 as [|x l Hs IH Hx]; [constructor|].
  cbn [map]. constructor; [exact IH|].
  rewrite Forall_forall in *. intros y Hy.
  apply in_map_iff in Hy as [z [<- Hz]]. now apply Hx.
Qed.

(** ** The landmark generator on a well-formed file *)

Section Landmark_refinement.

Variables frame_width frame_height : Z.

#[local] Abbreviation convert := (Landmark.convert frame_width frame_height).
#[local] Abbreviation rows_of := (landmark_rows frame_width frame_height).
#[local] Abbreviation lgroups := (landmark_groups frame_width frame_height).

Lemma convert_long_row row :
  (4 <= List.length row)%nat ->
  exists T it, convert row = inr (T, it) /\ T = hd 0 row.
Proof.
  intros Hlen.
  destruct row as [|T [|identifier [|x [|y rest]]]]; try (simpl in Hlen; lia).
  unfold Landmark.convert. cbn [nth_error skipn pairwise].
  do 2 eexists. split; reflexivity.
Qed.

Lemma convert_short_row row :
  (List.length row < 4)%nat -> exists e, convert row = inl e.
Proof.
  intros Hlen.
  destruct row as [|T [|identifier [|x [|y rest]]]];
    try (simpl in Hlen; lia); eexists; reflexivity.
Qed.

Lemma landmark_rows_cons row rest T it :
  convert row = inr (T, it) -> rows_of (row :: rest) = (T, it) :: rows_of rest.
Proof. intros E. unfold landmark_rows. cbn [flat_map]. now rewrite E. Qed.

Lemma landmark_rows_times shape :
  well_formed shape -> map fst (rows_of shape) = map (hd 0) shape.
Proof.
  induction 1 as [|row shape Hrow _ IH]; [reflexivity|].
  destruct (convert_long_row row Hrow) as (T & it & E & ->).
  rewrite (landmark_rows_cons _ _ _ _ E). cbn [map fst]. now rewrite IH.
Qed.

Lemma landmark_for_loop_serve rest : forall t c shapes qs,
  well_formed rest ->
  exists r g',
    Landmark.for_loop frame_width frame_height t (Some c) shapes rest
    = inr (r, g') /\
    serve (removelast (collect fst snd c shapes (rows_of rest))) (t :: qs)
    = r :: serve (removelast (lgroups g')) qs /\
    well_formed (unread g').
Proof.
  induction rest as [|row rest IH]; intros t c shapes qs Hwf.
  - exists (t, []), Landmark.End. repeat split. constructor.
  - apply Forall_cons_iff in Hwf as [Hrow Hwf].
    destruct (convert_long_row row Hrow) as (T & it & E & _).
    rewrite (landmark_rows_cons _ _ _ _ E).
    cbn [Landmark.for_loop collect fst snd]. rewrite E.
    destruct (Qeq_bool T c).
    + apply IH, Hwf.
    + rewrite removelast_collect_cons. unfold Landmark.wait_loop.
      cbn [serve fst]. destruct (Qgt_bool c t).
      * do 2 eexists. split; [reflexivity|]. split; [|exact Hwf].
        cbn [landmark_groups]. now rewrite removelast_collect_cons.
      * do 2 eexists. split; [reflexivity|]. split; [reflexivity | exact Hwf].
Qed.

Lemma landmark_send_serve g t qs :
  well_formed (unread g) ->
  exists r g',
    Landmark.send frame_width frame_height g t = inr (r, g') /\
    serve (removelast (lgroups g)) (t :: qs)
    = r :: serve (removelast (lgroups g')) qs /\
    well_formed (unread g').
Proof.
  destruct g as [shape|c shapes T it rest|T it rest|];
    cbn [unread Landmark.send landmark_groups]; intros Hwf.
  - destruct shape as [|row rest].
    + exists (t, []), Landmark.End. repeat split. constructor.
    + apply Forall_cons_iff in Hwf as [Hrow Hwf].
      destruct (convert_long_row row Hrow) as (T & it & E & _).
      rewrite (landmark_rows_cons _ _ _ _ E).
      cbn [Landmark.for_loop groups fst snd]. rewrite E.
      apply (landmark_for_loop_serve rest t T ([] ++ [it]) qs Hwf).
  - rewrite removelast_collect_cons. unfold Landmark.wait_loop.
    cbn [serve fst]. destruct (Qgt_bool c t).
    + do 2 eexists. split; [reflexivity|]. split; [|exact Hwf].
      cbn [landmark_groups]. now rewrite removelast_collect_cons.
    + do 2 eexists. split; [reflexivity|]. split; [reflexivity | exact Hwf].
  - apply (landmark_for_loop_serve rest t T [it] qs Hwf).
  - exists (t, []), Landmark.End. repeat split. constructor.
Qed.

Lemma landmark_run_serve qs : forall g,
  well_formed (unread g) ->
  Landmark.run frame_width frame_height g qs
  = (serve (removelast (lgroups g)) qs, None).
Proof.
  induction qs as [|q qs IH]; intros g Hwf; [reflexivity|].
  destruct (landmark_send_serve g q qs Hwf) as (r & g' & E & S & Hwf').
  cbn [Landmark.run]. rewrite E, (IH g' Hwf'), S. reflexivity.
Qed.

Lemma landmark_replay_serve shape qs :
  well_formed shape ->
  Landmark.replay frame_width frame_height shape qs
  = (serve (removelast (groups fst snd (rows_of shape))) qs, None).
Proof. intros Hwf. now apply landmark_run_serve. Qed.

End Landmark_refinement.





Lemma landmark_replies_atomic
        (frame_width frame_height : Z) (shape : list shape_row)
        (qs : list Q) :
  well_formed shape ->
  shape_ascending shape ->
  (forall r,
      In r (fst (Landmark.replay frame_width frame_height shape qs)) ->
      snd r = [] \/
      snd r = map snd (filter (fun x => Qeq_bool (fst x) (fst r))
                              (landmark_rows frame_width frame_height shape))) /\
  (forall i j ri rj,
      (i < j)%nat ->
      nth_error (fst (Landmark.replay frame_width frame_height shape qs)) i
      = Some ri ->
      nth_error (fst (Landmark.replay frame_width frame_height shape qs)) j
      = Some rj ->
      snd ri <> [] -> snd rj <> [] -> fst ri < fst rj).
Proof.
  intros Hwf Hasc. rewrite landmark_replay_serve by exact Hwf. cbn [fst].
  assert (Hsorted : StronglySorted (fun a b : Q * landmark_item => fst a <= fst b)
                      (landmark_rows frame_width frame_height shape)).
  { apply sorted_map. rewrite landmark_rows_times by exact Hwf.
    now apply map_sorted. }
  destruct (groups_of_sorted_rows fst snd _ Hsorted) as [Hinc Hall].
  split.
  - intros r Hr. apply serve_In in Hr as [Hr|Hr]; [now left | right].
    apply removelast_In in Hr. rewrite Forall_forall in Hall.
    now apply Hall.
  - intros i j ri rj. apply serve_increasing. now apply removelast_sorted.
Qed.

(** On a well-formed landmark file whose rows are in the order of their
    times, a reply is empty or holds the landmark sets of all the rows of
    one time, in the order of the file, and the replies that are not empty
    have strictly increasing times. *)
Theorem landmark_group_atomicity
        (frame_width frame_height : Z) (shape : list shape_row)
        (qs : list Q) :
  well_formed shape ->
  shape_ascending shape ->
  (forall r,
      In r (fst (Landmark.replay frame_width frame_height shape qs)) ->
      snd r = [] \/
      snd r = map snd (filter (fun x => Qeq_bool (fst x) (fst r))
                              (landmark_rows frame_width frame_height shape))) /\
  (forall i j ri rj,
      (i < j)%nat ->
      nth_error (fst (Landmark.replay frame_width frame_height shape qs)) i
      = Some ri ->
      nth_error (fst (Landmark.replay frame_width frame_height shape qs)) j
      = Some rj ->
      snd ri <> [] -> snd rj <> [] -> fst ri < fst rj).
Proof. apply landmark_replies_atomic. Qed.

(** A landmark file of two rows of time 1 and one row of time 2. *)
Lemma landmark_group_atomicity_witness :
  [(0%Z, [(50, 50)]); (1%Z, [(25, 25)])]
  = map snd (filter (fun x => Qeq_bool (fst x) 1)
                    (landmark_rows 100 100
                       [ [1; 0; 0.5; 0.5]; [1; 1; 0.25; 0.25];
                         [2; 0; 0.5; 0.5] ])).
Proof.
  destruct (landmark_group_atomicity 100 100
              [ [1; 0; 0.5; 0.5]; [1; 1; 0.25; 0.25]; [2; 0; 0.5; 0.5] ]
              [1.5]) as [H _].
  - repeat constructor.
  - repeat constructor; vm_compute; discriminate.
  - destruct (H (1, [(0%Z, [(50, 50)]); (1%Z, [(25, 25)])])) as [E|E].
    + left. reflexivity.
    + discriminate E.
    + exact E.
Defined.

(** ** The file written by [landmark] *)

Lemma sorted_app {A : Type} (P : A -> A -> Prop) (l1 l2 : list A) :
  StronglySorted P l1 -> StronglySorted P l2 ->
  (forall a b, In a l1 -> In b l2 -> P a b) ->
  StronglySorted P (l1 ++ l2).
Proof.
  induction 1 as [|x l1 Hs IH Hx]; intros H2 H12; [exact H2|].
  cbn [app]. constructor.
  - apply IH; [exact H2|]. intros a b Ha Hb. apply H12; [now right | exact Hb].
  - apply Forall_app. split; [exact Hx|].
    rewrite Forall_forall. intros b Hb. apply H12; [now left | exact Hb].
Qed.

Section Served_lines.

Context {X I : Type}.

(** What a driver writes for a frame and the reply to its timestamp; every
    line starts with the written time of the reply. *)
Variable write : X -> Q -> list I -> list shape_row.
Hypothesis write_time : forall x T items row,
  In row (write x T items) -> hd 0 row = format_f 3 T.
Hypothesis write_nothing : forall x T, write x T [] = [].

Lemma written_lines_sorted x T items : shape_ascending (write x T items).
Proof.
  unfold shape_ascending.
  assert (H : forall l, (forall row, In row l -> hd 0 row = format_f 3 T) ->
                        StronglySorted (fun a b : shape_row => hd 0 a <= hd 0 b) l).
  { induction l as [|y l IH]; intros Hl; [constructor|].
    constructor; [apply IH; intros row Hr; apply Hl; now right|].
    rewrite Forall_forall. intros z Hz.
    rewrite (Hl y (or_introl eq_refl)), (Hl z (or_intror Hz)). apply Qle_refl. }
  apply H. intros row. apply write_time.
Qed.

(** The lines written over the replies of the protocol: their times are in
    order, and each is the written time of a group. *)
Lemma served_lines_sorted (video : list (Q * X)) :
  forall gs : list (reply I),
  increasing gs ->
  shape_ascending
    (flat_map (fun x => write (snd (fst x)) (fst (snd x)) (snd (snd x)))
              (combine video (serve gs (map fst video)))) /\
  Forall (fun row => exists g, In g gs /\ hd 0 row = format_f 3 (fst g))
         (flat_map (fun x => write (snd (fst x)) (fst (snd x)) (snd (snd x)))
                   (combine video (serve gs (map fst video)))).
Proof.
  induction video as [|[timestamp rgb] video IH]; intros gs Hinc.
  { split; constructor. }
  cbn [map fst serve].
  assert (Hecho : forall gs',
    increasing gs' -> (forall g, In g gs' -> In g gs) ->
    shape_ascending
      (flat_map (fun x => write (snd (fst x)) (fst (snd x)) (snd (snd x)))
                (combine ((timestamp, rgb) :: video)
                         ((timestamp, []) :: serve gs' (map fst video)))) /\
    Forall (fun row => exists g, In g gs /\ hd 0 row = format_f 3 (fst g))
           (flat_map (fun x => write (snd (fst x)) (fst (snd x)) (snd (snd x)))
                     (combine ((timestamp, rgb) :: video)
                              ((timestamp, []) :: serve gs' (map fst video))))).
  { intros gs' Hinc' Hsub. destruct (IH gs' Hinc') as [Hs Hall].
    cbn [combine flat_map fst snd]. rewrite write_nothing. cbn [app].
    split; [exact Hs|].
    eapply Forall_impl; [|exact Hall].
    intros row (g & Hg & E). exists g. split; [now apply Hsub | exact E]. }
  destruct gs as [|g gs].
  - apply Hecho; [constructor | auto].
  - destruct (Qgt_bool (fst g) timestamp).
    + apply Hecho; [exact Hinc | auto].
    + apply StronglySorted_inv in Hinc as [Hinc Hg].
      destruct (IH gs Hinc) as [Hs Hall].
      cbn [combine flat_map fst snd]. split.
      * apply sorted_app; [apply written_lines_sorted | exact Hs|].
        intros a b Ha Hb. rewrite (write_time _ _ _ _ Ha).
        rewrite Forall_forall in Hall, Hg.
        destruct (Hall b Hb) as (g' & Hg' & ->).
        apply format_f_monotone, Qlt_le_weak. now apply Hg.
      * apply Forall_app. split.
        -- rewrite Forall_forall. intros row Hrow. exists g.
           split; [now left | now apply (write_time rgb _ (snd g))].
        -- eapply Forall_impl; [|exact Hall].
           intros row (g' & Hg' & E). exists g'. split; [now right | exact E].
Qed.

End Served_lines.

Section Landmark_driver_facts.

Variables frame_width frame_height : Z.
Variable image : Type.
Variable get_landmarks : image -> rect -> list (Q * Q).

#[local] Abbreviation lines :=
  (frame_lines frame_width frame_height image get_landmarks).
#[local] Abbreviation frames :=
  (landmark_frames frame_width frame_height image get_landmarks).

Lemma frame_lines_time rgb T faces row :
  In row (lines rgb T faces) -> hd 0 row = format_f 3 T.
Proof.
  unfold frame_lines. intros H. apply in_map_iff in H as [[[id box] st] [<- _]].
  reflexivity.
Qed.

Lemma landmark_frames_run video : forall g,
  frames g video
  = flat_map (fun x => lines (snd (fst x)) (fst (snd x)) (snd (snd x)))
             (combine video
                      (Face.run frame_width frame_height false g
                                (map fst video))).
Proof.
  induction video as [|[timestamp rgb] video IH]; intros g; [reflexivity|].
  cbn [landmark_frames map fst Face.run].
  destruct (Face.send frame_width frame_height false g timestamp) as [r g'].
  cbn [combine flat_map fst snd]. now rewrite IH.
Qed.

Lemma landmark_ascending video tracking :
  shape_ascending
    (landmark frame_width frame_height image get_landmarks video tracking).
Proof.
  unfold landmark. rewrite landmark_frames_run, run_serve.
  apply (served_lines_sorted lines frame_lines_time (fun _ _ => eq_refl)).
  apply (pending_sorted frame_width frame_height false).
Qed.

Lemma landmark_line_length T identifier landmarks :
  List.length (landmark_line frame_width frame_height T identifier landmarks)
  = (2 + 2 * List.length landmarks)%nat.
Proof.
  unfold landmark_line. cbn [List.length]. do 2 f_equal.
  induction landmarks as [|p l IH]; [reflexivity|].
  cbn [flat_map app List.length]. rewrite IH. lia.
Qed.

Lemma landmark_well_formed video tracking :
  (forall rgb box, get_landmarks rgb box <> []) ->
  well_formed
    (landmark frame_width frame_height image get_landmarks video tracking).
Proof.
  intros Hne. unfold landmark, well_formed.
  generalize (Face.getFaceGenerator tracking).
  induction video as [|[timestamp rgb] video IH]; intros g; [constructor|].
  cbn [landmark_frames].
  destruct (Face.send frame_width frame_height false g timestamp) as [r g'].
  apply Forall_app. split; [|apply IH].
  unfold frame_lines. rewrite Forall_forall. intros row Hrow.
  apply in_map_iff in Hrow as [[[id box] st] [<- _]].
  rewrite landmark_line_length.
  specialize (Hne rgb box). destruct (get_landmarks rgb box); [now elim Hne|].
  simpl. lia.
Qed.

End Landmark_driver_facts.

(** Whatever the video, the tracking file and the landmark collaborator,
    the rows of the file [landmark] writes are in the order of their
    times: the landmark generator, which does not sort, reads a sorted
    file. *)
Theorem landmark_file_ascending
        (frame_width frame_height : Z) (image : Type)
        (get_landmarks : image -> rect -> list (Q * Q))
        (video : list (Q * image)) (tracking : list track_row) :
  shape_ascending
    (landmark frame_width frame_height image get_landmarks video tracking).
Proof. apply landmark_ascending. Qed.

(** A line of the landmark file has two fields and two more for each
    landmark, so that the landmark generator reads back as many points as
    the collaborator returned. *)
Theorem landmark_line_fields
        (frame_width frame_height : Z) (T : Q) (identifier : Z)
        (landmarks : list (Q * Q)) :
  landmarks <> [] ->
  List.length (landmark_line frame_width frame_height T identifier landmarks)
  = (2 + 2 * List.length landmarks)%nat /\
  exists T' identifier' landmarks',
    Landmark.convert frame_width frame_height
      (landmark_line frame_width frame_height T identifier landmarks)
    = inr (T', (identifier', landmarks')) /\
    List.length landmarks' = List.length landmarks.
Proof.
  intros Hne. split; [apply landmark_line_length|].
  unfold Landmark.convert, landmark_line. cbn [nth_error skipn].
  rewrite pairwise_flat_map.
  destruct landmarks as [|p l]; [now elim Hne|]. cbn [map].
  do 3 eexists. split; [reflexivity|].
  cbn [map List.length]. now rewrite !length_map.
Qed.

Lemma landmark_line_fields_witness :
  List.length (landmark_line 640 480 1 0 [(320, 240); (1, 479)])
  = (2 + 2 * List.length [(320, 240); (1, 479)])%nat /\
  exists T' identifier' landmarks',
    Landmark.convert 640 480 (landmark_line 640 480 1 0 [(320, 240); (1, 479)])
    = inr (T', (identifier', landmarks')) /\
    List.length landmarks' = List.length [(320, 240); (1, 479)].
Proof.
  apply (landmark_line_fields 640 480 1 0 [(320, 240); (1, 479)]).
  discriminate.
Defined.



(** ** The overlay *)

Lemma draw_faces_without_shape labels faces : forall n,
  exists ds, draw_faces labels None n faces = inr ds /\
             List.length ds = (3 * List.length faces)%nat.
Proof.
  induction faces as [|[[id face] st] faces IH]; intros n.
  - exists []. split; reflexivity.
  - destruct (IH (S n)) as [ds [E Hlen]]. cbn [draw_faces draw_face].
    rewrite E. eexists. split; [reflexivity|].
    cbn [app List.length]. rewrite Hlen. lia.
Qed.

Lemma overlay_no_shape
        (frame_width frame_height : Z) (shift : Q)
        (labels : list (Z * string)) (height : Z)
        (fg : Face.gen) (timestamp : Q) :
  exists ds,
    overlay frame_width frame_height shift labels height (fg, None) timestamp
    = inr (ds, (snd (Face.send frame_width frame_height true fg
                               (timestamp - shift)), None)) /\
    List.length ds
    = (1 + 3 * List.length
             (snd (fst (Face.send frame_width frame_height true fg
                                  (timestamp - shift)))))%nat.
Proof.
  unfold overlay. cbn [fst snd].
  destruct (Face.send frame_width frame_height true fg (timestamp - shift))
    as [r fg'].
  cbn [fst snd].
  destruct (draw_faces_without_shape labels (snd r) 0) as [ds [E Hlen]].
  rewrite E. eexists. split; [reflexivity|].
  cbn [List.length]. now rewrite Hlen.
Qed.


Lemma draw_faces_succeeds labels lms faces : forall n,
  (exists ds, draw_faces labels (Some lms) n faces = inr ds) <->
  (forall i, (i < List.length faces)%nat ->
             exists lid pts, nth_error lms (n + i) = Some (lid, pts) /\
                             (34 <= List.length pts)%nat).
Proof.
  induction faces as [|[[id face] st] faces IH]; intros n.
  - split; [intros _ i Hi; simpl in Hi; lia | intros _; now exists []].
  - cbn [draw_faces draw_face]. unfold draw_nose. split.
    + intros [ds H] i Hi.
      destruct (nth_error lms n) as [[lid pts]|] eqn:En; [|discriminate].
      destruct (nth_error pts 27) as [p27|]; [|discriminate].
      destruct (nth_error pts 33) as [p33|] eqn:E33; [|discriminate].
      destruct (draw_faces labels (Some lms) (S n) faces) as [e|ds'] eqn:E';
        [discriminate|].
      destruct i as [|i].
      * rewrite Nat.add_0_r, En. exists lid, pts. split; [reflexivity|].
        assert (33 < List.length pts)%nat
          by (apply nth_error_Some; congruence).
        lia.
      * rewrite <- Nat.add_succ_comm.
        apply (proj1 (IH (S n))); [now exists ds' | simpl in Hi; lia].
    + intros H.
      destruct (H 0%nat ltac:(simpl; lia)) as (lid & pts & En & Hlen).
      rewrite Nat.add_0_r in En. rewrite En.
      destruct (nth_error pts 27) as [p27|] eqn:E27;
        [|apply nth_error_None in E27; lia].
      destruct (nth_error pts 33) as [p33|] eqn:E33;
        [|apply nth_error_None in E33; lia].
      destruct (proj2 (IH (S n))) as [ds' E'].
      { intros i Hi. rewrite Nat.add_succ_comm. apply H. simpl. lia. }
      rewrite E'. eexists. reflexivity.
Qed.

(** With a landmark reply, the faces of a reply are drawn without an error
    exactly when every face has, at its position in the landmark reply, a
    landmark set of 34 points or more (the points 27 and 33 are read). *)
Theorem draw_faces_succeeds_iff
        (labels : list (Z * string)) (lms : list landmark_item)
        (faces : list face_item) :
  (exists ds, draw_faces labels (Some lms) 0 faces = inr ds) <->
  (forall i, (i < List.length faces)%nat ->
             exists lid pts, nth_error lms i = Some (lid, pts) /\
                             (34 <= List.length pts)%nat).
Proof. apply (draw_faces_succeeds labels lms faces 0). Qed.


(** ** The palette *)

Lemma COLORS_NoDup : NoDup COLORS.
Proof.
  unfold COLORS. repeat constructor; simpl; intuition congruence.
Qed.

(** Two track identifiers are drawn in the same colour exactly when they
    are equal modulo 26. *)
Theorem same_color_iff (i j : Z) :
  color_of i = color_of j <-> (i mod 26 = j mod 26)%Z.
Proof.
  unfold color_of. change (Z.of_nat (List.length COLORS)) with 26%Z.
  pose proof (Z.mod_pos_bound i 26 ltac:(lia)) as Hi.
  pose proof (Z.mod_pos_bound j 26 ltac:(lia)) as Hj.
  split.
  - intros E.
    assert (En : Z.to_nat (i mod 26) = Z.to_nat (j mod 26)).
    { apply (proj1 (NoDup_nth COLORS (0, 0, 0)%Z) COLORS_NoDup);
        [change (List.length COLORS) with 26%nat; lia..|exact E]. }
    lia.
  - now intros ->.
Qed.

(** ** The labels of [demo] *)

Lemma labels_get_skip (l1 l2 : list (Z * string)) (identifier : Z) :
  Forall (fun kv => fst kv <> identifier) l1 ->
  labels_get (l1 ++ l2) identifier = labels_get l2 identifier.
Proof.
  induction 1 as [|[k v] l1 Hk _ IH]; [reflexivity|].
  cbn [app labels_get]. cbn [fst] in Hk.
  destruct (Z.eqb_spec k identifier); [contradiction | exact IH].
Qed.

Lemma labels_get_absent (l : list (Z * string)) (identifier : Z) :
  Forall (fun kv => fst kv <> identifier) l ->
  labels_get l identifier = EmptyString.
Proof.
  intros H. rewrite <- (app_nil_r l). now rewrite labels_get_skip.
Qed.

Section Labels_facts.

Variable int_of_string : string -> option Z.

Lemma load_labels_inv lines : forall acc labels,
  load_labels int_of_string acc lines = inr labels ->
  exists kvs,
    Forall2 (fun line kv => exists tok, line = [tok; snd kv] /\
                                        int_of_string tok = Some (fst kv))
            lines kvs /\
    labels = rev kvs ++ acc.
Proof.
  induction lines as [|line lines IH]; intros acc labels H.
  - injection H as <-. exists []. split; [constructor | reflexivity].
  - destruct line as [|tok [|label [|x rest]]]; try discriminate.
    cbn [load_labels] in H.
    destruct (int_of_string tok) as [id|] eqn:E; [|discriminate].
    destruct (IH _ _ H) as [kvs [F ->]].
    exists ((id, label) :: kvs). split.
    + constructor; [|exact F]. exists tok. now split.
    + cbn [rev]. now rewrite <- app_assoc.
Qed.

Lemma load_labels_ok lines : forall acc,
  Forall (fun line => exists tok label id,
              line = [tok; label] /\ int_of_string tok = Some id) lines ->
  exists labels, load_labels int_of_string acc lines = inr labels.
Proof.
  induction lines as [|line lines IH]; intros acc H.
  - now exists acc.
  - apply Forall_cons_iff in H as [(tok & label & id & -> & E) H].
    cbn [load_labels]. rewrite E. now apply IH.
Qed.

End Labels_facts.

(** The label file is loaded without an error exactly when every line has
    two tokens of which the first is read as an integer; any other line
    raises. *)
Theorem load_labels_succeeds_iff
        (int_of_string : string -> option Z) (lines : list (list string)) :
  (exists labels, load_labels int_of_string [] lines = inr labels) <->
  Forall (fun line => exists tok label id,
              line = [tok; label] /\ int_of_string tok = Some id) lines.
Proof.
  split.
  - intros [labels H]. apply load_labels_inv in H as [kvs [F _]].
    induction F as [|line kv lines kvs [tok [-> E]] _ IH]; constructor.
    + now exists tok, (snd kv), (fst kv).
    + exact IH.
  - apply load_labels_ok.
Qed.

(** After the label file is loaded, the label shown for an identifier is
    the one of the last line that names it, and the empty string when no
    line does. *)
Theorem labels_last_line_wins
        (int_of_string : string -> option Z) (lines : list (list string))
        (labels : list (Z * string)) (identifier : Z) :
  load_labels int_of_string [] lines = inr labels ->
  (forall pre tok label post,
      lines = pre ++ [tok; label] :: post ->
      int_of_string tok = Some identifier ->
      (forall tok' label', In [tok'; label'] post ->
                           int_of_string tok' <> Some identifier) ->
      labels_get labels identifier = label) /\
  ((forall tok label, In [tok; label] lines ->
                      int_of_string tok <> Some identifier) ->
   labels_get labels identifier = EmptyString).
Proof.
  intros H. apply load_labels_inv in H as [kvs [F ->]]. rewrite app_nil_r.
  assert (Hkeys : forall ls ks,
    Forall2 (fun line kv => exists tok, line = [tok; snd kv] /\
                                        int_of_string tok = Some (fst kv))
            ls ks ->
    (forall tok label, In [tok; label] ls ->
                       int_of_string tok <> Some identifier) ->
    Forall (fun kv => fst kv <> identifier) ks).
  { induction 1 as [|line kv ls ks [tok [-> E]] _ IH]; intros Hno;
      constructor.
    - intros <-. apply (Hno tok (snd kv)); [now left | exact E].
    - apply IH. intros tok' label' Hin. apply (Hno tok' label'). now right. }
  split.
  - intros pre tok label post -> E Hpost.
    apply Forall2_app_inv_l in F as (kpre & kv & Fpre & Fkv & ->).
    inversion Fkv as [|line kv0 ls kpost [tok0 [Eline E0]] Fpost]; subst.
    injection Eline as Et El. subst tok0. rewrite E in E0.
    injection E0 as E0.
    rewrite rev_app_distr. cbn [rev]. rewrite <- !app_assoc.
    rewrite labels_get_skip.
    + cbn [app labels_get]. destruct kv0 as [k v]. cbn [fst snd] in *.
      subst k v. now rewrite Z.eqb_refl.
    + apply Forall_rev. now apply (Hkeys post).
  - intros Hno. apply labels_get_absent, Forall_rev. now apply (Hkeys lines).
Qed.

(** A file that names the identifier 3 twice. *)
Lemma labels_last_line_wins_witness :
  labels_get [(3%Z, "carl"%string); (4%Z, "bob"%string); (3%Z, "anna"%string)]
             3
  = "carl"%string.
Proof.
  pose (f := fun s : string =>
               if String.eqb s "3" then Some 3%Z
               else if String.eqb s "4" then Some 4%Z else None).
  destruct (labels_last_line_wins f
              [ ["3"; "anna"]; ["4"; "bob"]; ["3"; "carl"] ]%string
              [(3%Z, "carl"%string); (4%Z, "bob"%string); (3%Z, "anna"%string)]
              3 eq_refl) as [H _].
  apply (H [ ["3"; "anna"]; ["4"; "bob"] ]%string "3"%string "carl"%string []).
  - reflexivity.
  - reflexivity.
  - intros tok' label' [].
Defined.

(** ** The file written by [track] and replayed *)

Lemma face_line_time (identifier : nat) (s : sample) :
  row_t (face_line identifier s) = format_f 3 (fst (fst s)).
Proof. now destruct s as [[t [[[l u] r] b]] st]. Qed.

Lemma face_line_track (identifier : nat) (s : sample) :
  row_track (face_line identifier s) = Z.of_nat identifier.
Proof. now destruct s as [[t [[[l u] r] b]] st]. Qed.

Lemma track_from_In tracks : forall n row,
  In row (track_from n tracks) ->
  exists i tr s,
    nth_error tracks i = Some tr /\ In s tr /\ row = face_line (n + i) s.
Proof.
  induction tracks as [|tr tracks IH]; intros n row H; [destruct H|].
  cbn [track_from] in H. apply in_app_or in H as [H|H].
  - apply in_map_iff in H as [s [<- Hs]].
    exists 0%nat, tr, s. rewrite Nat.add_0_r. now repeat split.
  - destruct (IH _ _ H) as (i & tr' & s & Hi & Hs & ->).
    exists (S i), tr', s. rewrite Nat.add_succ_comm. now repeat split.
Qed.

(** Of a track without two equal written times, one line at most is of a
    given time. *)
Lemma track_rows_at (identifier : nat) (g : Q) (tr : list sample) :
  distinct_times tr ->
  (List.length (rows_at g (map (face_line identifier) tr)) <= 1)%nat.
Proof.
  unfold rows_at.
  induction 1 as [|a l Ha _ IH]; [simpl; lia|].
  cbn [map filter]. rewrite face_line_time.
  destruct (Qeq_bool (format_f 3 (fst (fst a))) g) eqn:E; [|exact IH].
  apply Qeq_bool_iff in E. rewrite filter_none; [simpl; lia|].
  rewrite Forall_forall. intros row Hrow.
  apply in_map_iff in Hrow as [b [<- Hb]]. rewrite face_line_time.
  apply Qeq_bool_false. intros Eb.
  rewrite Forall_forall in Ha. apply (Ha b Hb). now rewrite E, Eb.
Qed.

Lemma track_from_ids tracks : forall n g,
  Forall distinct_times tracks ->
  NoDup (map row_track (rows_at g (track_from n tracks))).
Proof.
  induction tracks as [|tr tracks IH]; intros n g Hd; [constructor|].
  apply Forall_cons_iff in Hd as [Htr Hd].
  cbn [track_from]. unfold rows_at. rewrite filter_app, map_app.
  fold (rows_at g (map (face_line n) tr)).
  fold (rows_at g (track_from (S n) tracks)).
  pose proof (track_rows_at n g tr Htr) as Hlen.
  destruct (rows_at g (map (face_line n) tr)) as [|x [|y l]] eqn:Ex;
    [apply IH, Hd | | simpl in Hlen; lia].
  cbn [map app]. constructor; [|apply IH, Hd].
  assert (Hx : row_track x = Z.of_nat n).
  { assert (Hin : In x (rows_at g (map (face_line n) tr)))
      by (rewrite Ex; now left).
    apply filter_In in Hin as [Hin _].
    apply in_map_iff in Hin as [s [<- _]]. apply face_line_track. }
  intros Hin. apply in_map_iff in Hin as [row [Erow Hrow]].
  apply filter_In in Hrow as [Hrow _].
  apply track_from_In in Hrow as (i & tr' & s & _ & _ & ->).
  rewrite face_line_track in Erow. lia.
Qed.

(** A face that is delivered was written by [track]: it is the record of
    a sample of the track whose position is its identifier, and the reply
    bears the written time of the sample. *)
Theorem delivered_face_is_a_sample
        (frame_width frame_height : Z) (double : bool)
        (tracks : list (list sample)) (qs : list Q)
        (r : reply face_item) (it : face_item) :
  In r (Face.replay frame_width frame_height double (track tracks) qs) ->
  In it (snd r) ->
  exists i tr s,
    nth_error tracks i = Some tr /\ In s tr /\
    it = Face.item frame_width frame_height double (face_line i s) /\
    fst (fst it) = Z.of_nat i /\
    format_f 3 (fst (fst s)) == fst r.
Proof.
  intros Hr Hit. apply replay_In in Hr as [Hr|Hr].
  { rewrite Hr in Hit. destruct Hit. }
  destruct (file_groups_sorted frame_width frame_height double (track tracks))
    as [_ Hall].
  rewrite Forall_forall in Hall. destruct (Hall r Hr) as [E _].
  rewrite E in Hit. apply in_map_iff in Hit as [row [<- Hrow]].
  apply filter_In in Hrow as [Hrow Ht].
  apply (Permutation_in _ (sort_values_perm (track tracks))) in Hrow.
  apply track_from_In in Hrow as (i & tr & s & Hi & Hs & ->).
  exists i, tr, s. cbn [Nat.add]. repeat split; try assumption.
  - unfold Face.item. cbn [fst]. apply face_line_track.
  - apply Qeq_bool_iff in Ht. now rewrite face_line_time in Ht.
Qed.

Lemma delivered_face_is_a_sample_witness :
  exists i tr s,
    nth_error [[(1, (0.1, 0.1, 0.3, 0.3), "ok"%string);
                (2, (0.1, 0.1, 0.3, 0.3), "ok"%string)]] i = Some tr /\
    In s tr /\
    (0%Z, rectangle 10 10 30 30, "ok"%string)
    = Face.item 100 100 false (face_line i s) /\
    fst (fst (0%Z, rectangle 10 10 30 30, "ok"%string)) = Z.of_nat i /\
    format_f 3 (fst (fst s)) == format_f 3 1.
Proof.
  apply (delivered_face_is_a_sample 100 100 false
           [[(1, (0.1, 0.1, 0.3, 0.3), "ok"%string);
             (2, (0.1, 0.1, 0.3, 0.3), "ok"%string)]]
           [5]
           (format_f 3 1, [(0%Z, rectangle 10 10 30 30, "ok"%string)])).
  - left. reflexivity.
  - left. reflexivity.
Defined.

(** When no track has two samples written with the same time, no reply
    holds the same track identifier twice: a face is delivered once for a
    frame. *)
Theorem delivered_identifiers_distinct
        (frame_width frame_height : Z) (double : bool)
        (tracks : list (list sample)) (qs : list Q)
        (r : reply face_item) :
  Forall distinct_times tracks ->
  In r (Face.replay frame_width frame_height double (track tracks) qs) ->
  NoDup (map (fun it : face_item => fst (fst it)) (snd r)).
Proof.
  intros Hd Hr. apply replay_In in Hr as [Hr|Hr].
  { rewrite Hr. constructor. }
  destruct (file_groups_sorted frame_width frame_height double (track tracks))
    as [_ Hall].
  rewrite Forall_forall in Hall. destruct (Hall r Hr) as [E _].
  rewrite E, map_map. cbn [Face.item fst].
  apply (Permutation_NoDup
           (l := map row_track (rows_at (fst r) (track tracks)))).
  - apply Permutation_map, filter_perm. symmetry. apply sort_values_perm.
  - apply track_from_ids, Hd.
Qed.

Lemma delivered_identifiers_distinct_witness :
  NoDup (map (fun it : face_item => fst (fst it))
             [(0%Z, rectangle 10 10 30 30, "ok"%string);
              (1%Z, rectangle 50 50 70 70, "ok"%string)]).
Proof.
  apply (delivered_identifiers_distinct 100 100 false
           [ [(1, (0.1, 0.1, 0.3, 0.3), "ok"%string);
              (2, (0.1, 0.1, 0.3, 0.3), "ok"%string)];
             [(1, (0.5, 0.5, 0.7, 0.7), "ok"%string);
              (2, (0.5, 0.5, 0.7, 0.7), "ok"%string)] ]
           [5]
           (format_f 3 1, [(0%Z, rectangle 10 10 30 30, "ok"%string);
                           (1%Z, rectangle 50 50 70 70, "ok"%string)])).
  - repeat constructor; vm_compute; discriminate.
  - left. reflexivity.
Defined.

(** ** The file written by [features] *)

Lemma landmark_pending_sorted (frame_width frame_height : Z)
      (shape : list shape_row) :
  well_formed shape ->
  shape_ascending shape ->
  increasing
    (removelast (groups fst snd (landmark_rows frame_width frame_height shape))).
Proof.
  intros Hwf Hasc. apply removelast_sorted.
  apply (groups_of_sorted_rows fst snd).
  apply sorted_map. rewrite landmark_rows_times by exact Hwf.
  now apply map_sorted.
Qed.

Section Features_driver_facts.

Variables frame_width frame_height : Z.
Variable image : Type.
Variable get_openface : image -> list (Q * Q) -> list Q.

#[local] Abbreviation flines :=
  (feature_lines image get_openface).
#[local] Abbreviation fframes :=
  (features_frames frame_width frame_height image get_openface).

Lemma feature_lines_time rgb T shapes row :
  In row (flines rgb T shapes) -> hd 0 row = format_f 3 T.
Proof.
  unfold feature_lines. intros H. apply in_map_iff in H as [[id lm] [<- _]].
  reflexivity.
Qed.

Lemma features_frames_serve video : forall g,
  well_formed (unread g) ->
  fframes g video
  = (flat_map (fun x => flines (snd (fst x)) (fst (snd x)) (snd (snd x)))
              (combine video
                       (serve (removelast
                                 (landmark_groups frame_width frame_height g))
                              (map fst video))),
     None).
Proof.
  induction video as [|[timestamp rgb] video IH]; intros g Hwf; [reflexivity|].
  destruct (landmark_send_serve frame_width frame_height g timestamp
              (map fst video) Hwf) as (r & g' & E & S & Hwf').
  cbn [features_frames map fst]. rewrite E, (IH g' Hwf'), S.
  reflexivity.
Qed.

Lemma features_sorted video shape :
  well_formed shape ->
  snd (features frame_width frame_height image get_openface video shape) = None /\
  (shape_ascending shape ->
   shape_ascending
     (fst (features frame_width frame_height image get_openface video shape))).
Proof.
  intros Hwf. unfold features, Landmark.getLandmarkGenerator.
  rewrite features_frames_serve by exact Hwf. split; [reflexivity|].
  intros Hasc. cbn [fst landmark_groups].
  apply (served_lines_sorted flines feature_lines_time (fun _ _ => eq_refl)).
  now apply landmark_pending_sorted.
Qed.

End Features_driver_facts.





(** ** [demo] over the frames *)

Lemma draw_faces_error labels landmarks faces : forall n e,
  draw_faces labels landmarks n faces = inl e -> e = IndexError.
Proof.
  induction faces as [|f faces IH]; intros n e H; [discriminate|].
  cbn [draw_faces] in H.
  destruct (draw_face labels landmarks n f) as [e0|ds] eqn:E0.
  - injection H as <-. now apply draw_face_error in E0.
  - destruct (draw_faces labels landmarks (S n) faces) as [e1|ds'] eqn:E1;
      [|discriminate].
    injection H as <-. now apply IH in E1.
Qed.


Lemma serve_nil {I : Type} (qs : list Q) :
  serve (@nil (reply I)) qs = map (fun q => (q, [])) qs.
Proof. induction qs as [|q qs IH]; [reflexivity|]. cbn [serve map]. now rewrite IH. Qed.

(** Two generators queried together, the groups of the second having the
    times of the first groups of the first: when the first delivers the
    group that follows them, the second answers with the empty reply. *)
Lemma serve_lockstep {I J : Type} (qs : list Q) :
  forall (gsF : list (reply I)) (gsL : list (reply J)) i f,
  increasing gsF ->
  Forall (fun g => snd g <> []) gsF ->
  Forall2 (fun f l => fst f == fst l) (firstn (List.length gsL) gsF) gsL ->
  nth_error gsF (List.length gsL) = Some f ->
  nth_error (serve gsF qs) i = Some f ->
  exists q, nth_error (serve gsL qs) i = Some (q, []).
Proof.
  induction qs as [|q qs IH]; intros gsF gsL i f Hinc Hne F Hf Hi.
  { now destruct i. }
  destruct gsL as [|l gsL].
  - rewrite serve_nil. rewrite nth_error_map.
    assert (Hlen : (i < List.length (q :: qs))%nat).
    { rewrite <- (serve_length (q :: qs) gsF). apply nth_error_Some. congruence. }
    apply nth_error_Some in Hlen.
    destruct (nth_error (q :: qs) i) as [q'|]; [|now elim Hlen].
    now exists q'.
  - destruct gsF as [|f0 gsF]; [discriminate Hf|].
    cbn [List.length firstn nth_error] in F, Hf.
    apply Forall2_cons_iff in F as [E F].
    apply StronglySorted_inv in Hinc as [Hinc Hf0].
    apply Forall_cons_iff in Hne as [Hne0 Hne].
    assert (Hb : Qgt_bool (fst l) q = Qgt_bool (fst f0) q).
    { destruct (Qgt_bool (fst f0) q) eqn:B.
      - apply Qgt_bool_true. apply Qgt_bool_true in B. now rewrite <- E.
      - apply Qgt_bool_false. apply Qgt_bool_false in B. now rewrite <- E. }
    assert (Hnef : snd f <> []).
    { rewrite Forall_forall in Hne. apply Hne. now apply nth_error_In in Hf. }
    cbn [serve] in Hi |- *. rewrite Hb.
    destruct (Qgt_bool (fst f0) q).
    + destruct i as [|i].
      * injection Hi as <-. now elim Hnef.
      * cbn [nth_error] in Hi |- *.
        apply (IH (f0 :: gsF) (l :: gsL) i f);
          [ now constructor | now constructor
          | cbn [List.length firstn]; now constructor
          | exact Hf | exact Hi ].
    + destruct i as [|i].
      * injection Hi as <-. apply nth_error_In in Hf.
        rewrite Forall_forall in Hf0. specialize (Hf0 _ Hf). lra.
      * cbn [nth_error] in Hi |- *. now apply (IH gsF gsL i f).
Qed.

Lemma removelast_length {A : Type} (l : list A) :
  List.length (removelast l) = (List.length l - 1)%nat.
Proof.
  rewrite removelast_firstn_len, length_firstn. lia.
Qed.

Lemma Forall2_firstn {A B : Type} (P : A -> B -> Prop) (n : nat) :
  forall l l', Forall2 P l l' -> Forall2 P (firstn n l) (firstn n l').
Proof.
  induction n as [|n IH]; intros l l' H; [constructor|].
  destruct H; cbn [firstn]; constructor; auto.
Qed.

Section Demo_facts.

Variables frame_width frame_height : Z.
Variable shift : Q.
Variable labels : list (Z * string).
Variable height : Z.

#[local] Abbreviation queries :=
  (map (fun timestamp : Q => timestamp - shift)).

Lemma demo_frames_raises timestamps : forall fg lg i f q,
  well_formed (unread lg) ->
  nth_error (Face.run frame_width frame_height true fg (queries timestamps)) i
  = Some f ->
  snd f <> [] ->
  nth_error (fst (Landmark.run frame_width frame_height lg
                               (queries timestamps))) i
  = Some (q, []) ->
  exists frames,
    demo_frames frame_width frame_height shift labels height
                (fg, Some lg) timestamps
    = (frames, Some IndexError) /\
    (List.length frames <= i)%nat.
Proof.
  induction timestamps as [|timestamp timestamps IH];
    intros fg lg i f q Hwf Hf Hne Hl.
  { now destruct i. }
  destruct (landmark_send_serve frame_width frame_height lg
              (timestamp - shift) [] Hwf) as (r' & lg' & ES & _ & Hwf').
  cbn [map Face.run Landmark.run] in Hf, Hl. rewrite ES in Hl.
  cbn [demo_frames]. unfold overlay. cbn [fst snd]. rewrite ES.
  destruct (Face.send frame_width frame_height true fg (timestamp - shift))
    as [r fg'].
  destruct (Landmark.run frame_width frame_height lg' (queries timestamps))
    as [rs e] eqn:ER.
  cbn [fst snd] in *.
  destruct (draw_faces labels (Some (snd r')) 0 (snd r)) as [e0|ds] eqn:ED.
  - apply draw_faces_error in ED as ->. exists []. split; [reflexivity|].
    simpl. lia.
  - destruct i as [|i].
    + injection Hf as <-. injection Hl as ->. cbn [snd] in ED.
      rewrite draw_faces_short in ED; [discriminate|].
      destruct (snd r); [now elim Hne | simpl; lia].
    + cbn [nth_error] in Hf, Hl.
      destruct (IH fg' lg' i f q Hwf' Hf Hne) as [frames [E Hlen]].
      { now rewrite ER. }
      rewrite E. eexists. split; [reflexivity | simpl; lia].
Qed.

End Demo_facts.

(** [demo] with a shape file that has the times of the first groups of the
    tracking file and ends before it, as the file written by [landmark]
    does: the encoding raises [IndexError] at the latest on the frame for
    which the face generator delivers the group that is the last of the
    shape file.  The landmark generator never delivers its last group, and
    the faces of that frame find no landmark set at their position. *)
Theorem demo_raises_at_last_shape_group
        (frame_width frame_height : Z) (shift : Q)
        (labels : list (Z * string)) (height : Z)
        (tracking : list track_row) (shape : list shape_row)
        (timestamps : list Q) (i : nat) (f : reply face_item) :
  well_formed shape ->
  let GF := file_groups frame_width frame_height true tracking in
  let GL := groups fst snd (landmark_rows frame_width frame_height shape) in
  GL <> [] ->
  (List.length GL < List.length GF)%nat ->
  Forall2 (fun f l => fst f == fst l) (firstn (List.length GL) GF) GL ->
  nth_error GF (List.length GL - 1) = Some f ->
  nth_error (Face.replay frame_width frame_height true tracking
                         (map (fun timestamp => timestamp - shift) timestamps))
            i
  = Some f ->
  exists frames,
    demo_frames frame_width frame_height shift labels height
                (get_fl tracking frame_width frame_height (Some shape))
                timestamps
    = (frames, Some IndexError) /\
    (List.length frames <= i)%nat.
Proof.
  intros Hwf GF GL Hnil Hlen F Hf Hi.
  assert (HK : (1 <= List.length GL)%nat) by (destruct GL; [now elim Hnil | simpl; lia]).
  destruct (file_groups_sorted frame_width frame_height true tracking)
    as [_ Hall]. fold GF in Hall.
  assert (Hne : snd f <> []).
  { rewrite Forall_forall in Hall. apply Hall. now apply nth_error_In in Hf. }
  destruct (serve_lockstep
              (map (fun timestamp => timestamp - shift) timestamps)
              (removelast GF) (removelast GL) i f) as [q Hq].
  - apply pending_sorted.
  - apply pending_nonempty.
  - rewrite removelast_length.
    rewrite (removelast_firstn_len GL).
    replace (Nat.pred (List.length GL)) with (List.length GL - 1)%nat by lia.
    rewrite firstn_removelast by lia.
    replace (firstn (List.length GL - 1) GF)
      with (firstn (List.length GL - 1) (firstn (List.length GL) GF)).
    + now apply Forall2_firstn.
    + rewrite firstn_firstn. f_equal. lia.
  - rewrite removelast_length, removelast_nth_error by lia. exact Hf.
  - rewrite replay_serve in Hi. exact Hi.
  - unfold get_fl. cbn [option_map].
    apply (demo_frames_raises frame_width frame_height shift labels height
             timestamps _ _ i f q).
    + exact Hwf.
    + exact Hi.
    + exact Hne.
    + unfold Landmark.getLandmarkGenerator.
      rewrite landmark_run_serve by exact Hwf. exact Hq.
Qed.

(** The tracking file [three_groups], the shape file written for it, and
    the frames of times 1, 2 and 3: the frame of time 2 raises. *)
Lemma demo_raises_at_last_shape_group_witness :
  exists frames,
    demo_frames 100 100 0 [] 100
                (get_fl three_groups 100 100 (Some sample_shape)) [1; 2; 3]
    = (frames, Some IndexError) /\
    (List.length frames <= 1)%nat.
Proof.
  apply (demo_raises_at_last_shape_group 100 100 0 [] 100 three_groups
           sample_shape [1; 2; 3] 1
           (2, [(1%Z, drectangle 50 50 70 70, "ok"%string)])).
  - apply landmark_well_formed. intros _ _. vm_compute. discriminate.
  - vm_compute. discriminate.
  - vm_compute. lia.
  - vm_compute. repeat constructor.
  - reflexivity.
  - reflexivity.
Defined.
